(** * React helper hooks of [src/index.ts]: a shallow embedding

    The nine hooks of [src/index.ts] are thin adapters between a browser
    API and React's state and effect cells.  Each hook is embedded as the
    state it keeps in its cells (state values, refs, memoised closures and
    the dependency lists React remembers) together with the transitions the
    host framework drives: the first render and its commit ([mount]), a
    later render and its commit ([update]), the browser events that reach
    the hook's listeners, and the final cleanup ([unmount]).

    Numbers are [Z], strings are [string], [localStorage] is a
    [gmap string string], arrays are lists, and time is a logical
    millisecond clock kept next to the table of pending timers. *)

From Stdlib Require Import ZArith List Lia Bool.
From stdpp Require Import base list strings gmap.

Local Open Scope Z_scope.

(** ** The part of React's hook machinery the hooks rely on *)

Module React.

(** Values that occur in dependency arrays, compared by [Object.is].
    [VUser] stands for any value handed in by the caller (two of them are
    the same value exactly when their tags agree), [VNum] and [VStr] for
    numbers and strings, [VClosure] for a function object allocated by
    the hook itself. *)
Inductive Value :=
| VUser (tag : Z)
| VNum (n : Z)
| VStr (s : string)
| VClosure (id : nat).

#[global] Instance Value_eq_dec : EqDecision Value.
Proof. solve_decision. Defined.

Definition object_is (a b : Value) : bool := bool_decide (a = b).

(** [areHookInputsEqual(nextDeps, prevDeps)]: the loop runs over the common
    prefix of the two arrays and stops at the first difference. *)
Fixpoint areHookInputsEqual (nextDeps prevDeps : list Value) : bool :=
  match nextDeps, prevDeps with
  | n :: nextDeps', p :: prevDeps' =>
      if object_is n p then areHookInputsEqual nextDeps' prevDeps' else false
  | _, _ => true
  end.

(** Whether an effect (or a memoised closure) with dependency array
    [nextDeps] is run again at a re-render. *)
Definition deps_changed (nextDeps prevDeps : list Value) : bool :=
  negb (areHookInputsEqual nextDeps prevDeps).

(** A callback supplied by the caller is opaque; it is identified by a tag,
    and calling it is recorded in a log. *)
Definition Callback := Z.

(** [SetStateAction<S>]: either the next value or an updater. *)
Inductive SetStateAction (S : Type) :=
| NextValue (v : S)
| Updater (f : S -> S).
Arguments NextValue {S} v.
Arguments Updater {S} f.

Definition dispatch {S : Type} (a : SetStateAction S) (prev : S) : S :=
  match a with
  | NextValue v => v
  | Updater f => f prev
  end.

End React.

(** ** [useToggle] *)

Module UseToggle.
Import React.

(** [React.useState(defaultValue)] *)
Definition useToggle (defaultValue : bool) : bool := defaultValue.

(** [changeToggle(value: boolean | null)]: [None] is [null]. *)
Definition changeToggle (value : option bool) : SetStateAction bool :=
  Updater (fun prev => match value with
                       | Some b => b          (* typeof value === 'boolean' *)
                       | None => negb prev
                       end).

Definition change (value : option bool) (toggle : bool) : bool :=
  dispatch (changeToggle value) toggle.

End UseToggle.

(** ** [useArray] *)

Module UseArray.
Import React.

Section Arrays.
Context {A : Type}.

(** [Array.prototype.slice(start, end)] for integer arguments: a negative
    bound counts from the end, both bounds are clamped to [0 .. length],
    and an empty range gives the empty array. *)
Definition clamp_index (len rel : Z) : Z :=
  if rel <? 0 then Z.max (len + rel) 0 else Z.min rel len.

Definition slice (start stop : Z) (arr : list A) : list A :=
  let len := Z.of_nat (length arr) in
  let k := clamp_index len start in
  let final := clamp_index len stop in
  take (Z.to_nat (Z.max (final - k) 0)) (drop (Z.to_nat k) arr).

Definition array_length (arr : list A) : Z := Z.of_nat (length arr).

(** [useState(defaultValue ? defaultValue : [])] *)
Definition useArray (defaultValue : option (list A)) : list A :=
  match defaultValue with
  | Some d => d
  | None => []
  end.

Definition clear : SetStateAction (list A) := NextValue [].

Definition push (value : A) : SetStateAction (list A) :=
  Updater (fun prev => prev ++ [value]).

Definition remove (index : Z) : SetStateAction (list A) :=
  Updater (fun prev =>
    slice 0 index prev ++ slice (index + 1) (array_length prev - 1) prev).

Definition update (index : Z) (value : A) : SetStateAction (list A) :=
  Updater (fun prev =>
    slice 0 index prev ++ [value]
      ++ slice (index + 1) (array_length prev - 1) prev).

Definition filter (f : A -> bool) : SetStateAction (list A) :=
  Updater (fun prev => List.filter f prev).

End Arrays.

End UseArray.

(** ** The window: its size and its event listeners *)

Module Window.

Inductive EventType := resize | mousemove | keydown.

#[global] Instance EventType_eq_dec : EqDecision EventType.
Proof. solve_decision. Defined.

(** A function object is identified by its allocation number. *)
Definition FnRef := nat.

Definition Listener : Type := EventType * FnRef.

Record Window := {
  innerWidth : Z;
  innerHeight : Z;
  listeners : list Listener;   (* the window's event listener list *)
  next_fn : nat                (* allocation number of the next closure *)
}.

Definition with_listeners (ls : list Listener) (w : Window) : Window :=
  {| innerWidth := innerWidth w; innerHeight := innerHeight w;
     listeners := ls; next_fn := next_fn w |}.

Definition with_size (width height : Z) (w : Window) : Window :=
  {| innerWidth := width; innerHeight := height;
     listeners := listeners w; next_fn := next_fn w |}.

(** Creating a closure takes the next allocation number. *)
Definition alloc_fn (w : Window) : FnRef * Window :=
  (next_fn w,
   {| innerWidth := innerWidth w; innerHeight := innerHeight w;
      listeners := listeners w; next_fn := S (next_fn w) |}).

(** [window.addEventListener(type, fn)]: a listener that is already in the
    list is not added a second time. *)
Definition addEventListener (ty : EventType) (fn : FnRef) (w : Window) : Window :=
  if bool_decide ((ty, fn) ∈ listeners w) then w
  else with_listeners (listeners w ++ [(ty, fn)]) w.

(** [window.removeEventListener(type, fn)] *)
Definition removeEventListener (ty : EventType) (fn : FnRef) (w : Window) : Window :=
  with_listeners (base.filter (λ l, l ≠ (ty, fn)) (listeners w)) w.

(** The functions an event of type [ty] is delivered to, in order. *)
Definition handlers (ty : EventType) (w : Window) : list FnRef :=
  (base.filter (λ l, l.1 = ty) (listeners w)).*2.

(** Every function object in the listener list has been allocated, and the
    list holds no listener twice. *)
Definition window_wf (w : Window) : Prop :=
  NoDup (listeners w) ∧ ∀ ty fn, (ty, fn) ∈ listeners w → (fn < next_fn w)%nat.

End Window.

(** ** [useWindowSize] *)

Module UseWindowSize.
Import React Window.

Record WindowSize := { width : Z; height : Z }.

(** The state cell, and the closure [handleWindowResize] the effect created
    and its cleanup still holds ([None] while no effect is mounted). *)
Record Hook := {
  windowSize : WindowSize;
  handleWindowResize : option FnRef
}.

Definition setWindowSize (a : SetStateAction WindowSize) (h : Hook) : Hook :=
  {| windowSize := dispatch a (windowSize h);
     handleWindowResize := handleWindowResize h |}.

(** The body of [handleWindowResize]. *)
Definition handleWindowResize_body (w : Window) (h : Hook) : Hook :=
  setWindowSize
    (NextValue {| width := innerWidth w; height := innerHeight w |}) h.

(** The effect: create the closure, call it once, register it. *)
Definition effect (s : Hook * Window) : Hook * Window :=
  let '(h, w) := s in
  let '(fn, w) := alloc_fn w in
  let h := handleWindowResize_body w h in
  let w := addEventListener resize fn w in
  ({| windowSize := windowSize h; handleWindowResize := Some fn |}, w).

(** The cleanup returned by the effect. *)
Definition cleanup (s : Hook * Window) : Hook * Window :=
  let '(h, w) := s in
  match handleWindowResize h with
  | Some fn =>
      ({| windowSize := windowSize h; handleWindowResize := None |},
       removeEventListener resize fn w)
  | None => s
  end.

(** First render ([useState({width: 0, height: 0})]) and its commit. *)
Definition mount (w : Window) : Hook * Window :=
  effect ({| windowSize := {| width := 0; height := 0 |};
             handleWindowResize := None |}, w).

(** A later render: the dependency array is [[]], so the effect is run
    again only if React reports a change between [[]] and [[]]. *)
Definition update (s : Hook * Window) : Hook * Window :=
  if deps_changed [] [] then effect (cleanup s) else s.

Definition unmount (s : Hook * Window) : Hook * Window := cleanup s.

(** What the hook returns to the component. *)
Definition useWindowSize (s : Hook * Window) : WindowSize := windowSize s.1.

(** Calling function object [fn]: it runs [handleWindowResize] when it is
    this hook's closure; any other function leaves the hook alone. *)
Definition call (w : Window) (h : Hook) (fn : FnRef) : Hook :=
  if bool_decide (handleWindowResize h = Some fn)
  then handleWindowResize_body w h else h.

(** The browser resizes the window and delivers a [resize] event. *)
Definition on_resize (newWidth newHeight : Z) (s : Hook * Window) : Hook * Window :=
  let '(h, w) := s in
  let w := with_size newWidth newHeight w in
  (foldl (call w) h (handlers resize w), w).

Inductive Step :=
| Render
| Resize (newWidth newHeight : Z).

Definition step (s : Hook * Window) (e : Step) : Hook * Window :=
  match e with
  | Render => update s
  | Resize nw nh => on_resize nw nh s
  end.

Definition run (es : list Step) (s : Hook * Window) : Hook * Window :=
  foldl step s es.

End UseWindowSize.

(** ** [useMouse] *)

Module UseMouse.
Import React Window.

Record MousePosition := { x : Z; y : Z }.

Record MouseEvent := { clientX : Z; clientY : Z }.

Record Hook := {
  mousePosition : MousePosition;
  handleMouseMovement : option FnRef
}.

Definition setMousePosition (a : SetStateAction MousePosition) (h : Hook) : Hook :=
  {| mousePosition := dispatch a (mousePosition h);
     handleMouseMovement := handleMouseMovement h |}.

Definition handleMouseMovement_body (event : MouseEvent) (h : Hook) : Hook :=
  setMousePosition (NextValue {| x := clientX event; y := clientY event |}) h.

Definition effect (s : Hook * Window) : Hook * Window :=
  let '(h, w) := s in
  let '(fn, w) := alloc_fn w in
  let w := addEventListener mousemove fn w in
  ({| mousePosition := mousePosition h; handleMouseMovement := Some fn |}, w).

Definition cleanup (s : Hook * Window) : Hook * Window :=
  let '(h, w) := s in
  match handleMouseMovement h with
  | Some fn =>
      ({| mousePosition := mousePosition h; handleMouseMovement := None |},
       removeEventListener mousemove fn w)
  | None => s
  end.

Definition mount (w : Window) : Hook * Window :=
  effect ({| mousePosition := {| x := 0; y := 0 |};
             handleMouseMovement := None |}, w).

Definition update (s : Hook * Window) : Hook * Window :=
  if deps_changed [] [] then effect (cleanup s) else s.

Definition unmount (s : Hook * Window) : Hook * Window := cleanup s.

Definition useMouse (s : Hook * Window) : MousePosition := mousePosition s.1.

Definition call (event : MouseEvent) (h : Hook) (fn : FnRef) : Hook :=
  if bool_decide (handleMouseMovement h = Some fn)
  then handleMouseMovement_body event h else h.

(** The browser delivers a [mousemove] event. *)
Definition on_mousemove (event : MouseEvent) (s : Hook * Window) : Hook * Window :=
  let '(h, w) := s in
  (foldl (call event) h (handlers mousemove w), w).

Inductive Step :=
| Render
| MouseMove (event : MouseEvent).

Definition step (s : Hook * Window) (e : Step) : Hook * Window :=
  match e with
  | Render => update s
  | MouseMove ev => on_mousemove ev s
  end.

Definition run (es : list Step) (s : Hook * Window) : Hook * Window :=
  foldl step s es.

End UseMouse.

(** ** [useKeyboard] *)

Module UseKeyboard.
Import React Window.

(** The hook keeps no state of its own; React keeps the cleanup of the
    last effect, which holds the [eventHandler] of that render. *)
Record Hook := { registered : option FnRef }.

Definition effect (eventHandler : FnRef) (s : Hook * Window) : Hook * Window :=
  ({| registered := Some eventHandler |},
   addEventListener keydown eventHandler s.2).

Definition cleanup (s : Hook * Window) : Hook * Window :=
  match registered s.1 with
  | Some fn => ({| registered := None |}, removeEventListener keydown fn s.2)
  | None => s
  end.

Definition mount (eventHandler : FnRef) (w : Window) : Hook * Window :=
  effect eventHandler ({| registered := None |}, w).

(** The effect has no dependency array: it is run again at every render,
    after the cleanup of the previous one. *)
Definition update (eventHandler : FnRef) (s : Hook * Window) : Hook * Window :=
  effect eventHandler (cleanup s).

Definition unmount (s : Hook * Window) : Hook * Window := cleanup s.

(** Re-renders with the given handlers, one after the other. *)
Definition run (eventHandlers : list FnRef) (s : Hook * Window) : Hook * Window :=
  foldl (λ s eventHandler, update eventHandler s) s eventHandlers.

(** The listeners the hook registers over renders with these handlers. *)
Definition added (eventHandlers : list FnRef) : list Listener :=
  (λ fn, (keydown, fn)) <$> eventHandlers.

End UseKeyboard.

(** ** [useLocalStorage] *)

Module UseLocalStorage.
Import React.

(** [window.localStorage]: [getItem] is the lookup ([None] is [null]),
    [setItem] the insertion. *)
Definition getItem (key : string) (storage : gmap string string) : option string :=
  storage !! key.

Definition setItem (key value : string) (storage : gmap string string)
  : gmap string string :=
  <[key := value]> storage.

(** Truthiness of a [string | null]: [null] and the empty string are falsy. *)
Definition truthy (local : option string) : bool :=
  match local with
  | Some s => negb (bool_decide (s = ""%string))
  | None => false
  end.

(** The state cell [data] and the dependency array React remembers for the
    effect ([None] before the first commit). *)
Record Hook := {
  data : string;
  effect_deps : option (list Value)
}.

(** The lazy initialiser handed to [useState]. *)
Definition initial_data (key initial : string) (storage : gmap string string) : string :=
  let local := getItem key storage in
  if truthy local then default initial local else initial.

(** The effect [window.localStorage.setItem(key, data)] with dependency
    array [[key, data]]. *)
Definition commit (key : string) (s : Hook * gmap string string)
  : Hook * gmap string string :=
  let '(h, storage) := s in
  let nextDeps := [VStr key; VStr (data h)] in
  let run := match effect_deps h with
             | Some prevDeps => deps_changed nextDeps prevDeps
             | None => true
             end in
  ({| data := data h; effect_deps := Some nextDeps |},
   if run then setItem key (data h) storage else storage).

Definition mount (key initial : string) (storage : gmap string string)
  : Hook * gmap string string :=
  commit key ({| data := initial_data key initial storage;
                 effect_deps := None |}, storage).

(** A re-render of the component, which passes [key]. *)
Definition update (key : string) (s : Hook * gmap string string)
  : Hook * gmap string string :=
  commit key s.

(** [setData(a)] followed by the re-render it causes. *)
Definition setData (a : SetStateAction string) (key : string)
    (s : Hook * gmap string string) : Hook * gmap string string :=
  update key ({| data := dispatch a (data s.1);
                 effect_deps := effect_deps s.1 |}, s.2).

(** What the hook returns, first component. *)
Definition useLocalStorage (s : Hook * gmap string string) : string := data s.1.

(** After a commit the effect's dependency array is [[key, data]] and the
    storage holds [data] under [key]. *)
Definition synced (key : string) (s : Hook * gmap string string) : Prop :=
  effect_deps s.1 = Some [VStr key; VStr (data s.1)]
  ∧ getItem key s.2 = Some (data s.1).

End UseLocalStorage.

(** ** [useUpdateEffect] *)

Module UseUpdateEffect.
Import React.

(** The ref [isFirstRender], the dependency array of the last render, and
    the log of the calls of [callback]. *)
Record Hook := {
  isFirstRender : bool;
  effect_deps : list Value;
  called : list Callback
}.

(** The body of the effect.  [callback] returns nothing, so the effect
    has no cleanup. *)
Definition effect (callback : Callback) (h : Hook) : Hook :=
  if isFirstRender h
  then {| isFirstRender := false; effect_deps := effect_deps h;
          called := called h |}
  else {| isFirstRender := isFirstRender h; effect_deps := effect_deps h;
          called := called h ++ [callback] |}.

Definition with_deps (dependencies : list Value) (h : Hook) : Hook :=
  {| isFirstRender := isFirstRender h; effect_deps := dependencies;
     called := called h |}.

(** First render: [useRef(true)], and the effect is run. *)
Definition mount (callback : Callback) (dependencies : list Value) : Hook :=
  effect callback
    {| isFirstRender := true; effect_deps := dependencies; called := [] |}.

(** A later render: the effect is run when React's comparison of the
    dependency arrays reports a change. *)
Definition update (callback : Callback) (dependencies : list Value) (h : Hook) : Hook :=
  if deps_changed dependencies (effect_deps h)
  then effect callback (with_deps dependencies h)
  else with_deps dependencies h.

(** Whether the render [update callback dependencies h] calls a callback. *)
Definition runs_callback (callback : Callback) (dependencies : list Value)
    (h : Hook) : bool :=
  bool_decide (called (update callback dependencies h) ≠ called h).

Definition run (renders : list (Callback * list Value)) (h : Hook) : Hook :=
  foldl (λ h r, update r.1 r.2 h) h renders.

(** The renders of a sequence at which React reports a change of the
    dependency array, given the array of the render before. *)
Fixpoint changed_renders (prevDeps : list Value)
    (renders : list (Callback * list Value)) : list Callback :=
  match renders with
  | [] => []
  | (callback, dependencies) :: renders' =>
      (if deps_changed dependencies prevDeps then [callback] else [])
        ++ changed_renders dependencies renders'
  end.

End UseUpdateEffect.

(** ** Timers on a logical clock *)

Module Timers.
Import React.

(** The runtime whose [setTimeout] the hook calls: a browser, or Node (as
    under server-side rendering and in tests). *)
Inductive Runtime := Browser | Node.

#[global] Instance Runtime_eq_dec : EqDecision Runtime.
Proof. solve_decision. Defined.

(** The delay argument as a 32-bit signed integer (a Web IDL [long]): it
    wraps around modulo [2^32]. *)
Definition to_long (delay : Z) : Z := (delay + 2 ^ 31) `mod` 2 ^ 32 - 2 ^ 31.

(** The largest delay a timer takes, [2^31 - 1] milliseconds. *)
Definition TIMEOUT_MAX : Z := 2 ^ 31 - 1.

(** The milliseconds a timer set with [delay] waits.  A browser takes the
    delay as a [long] and counts a negative one as zero; Node sets a delay
    below 1 or above [TIMEOUT_MAX] to 1. *)
Definition timer_delay (rt : Runtime) (delay : Z) : Z :=
  match rt with
  | Browser => Z.max 0 (to_long delay)
  | Node => if (1 <=? delay) && (delay <=? TIMEOUT_MAX) then delay else 1
  end.

(** The runtime, the clock in milliseconds, the handle the next
    [setTimeout] returns, the timers that are set and not yet fired or
    cleared (handle and due time), and the log of the callbacks the timers
    called (with the time of the call). *)
Record Timers := {
  runtime : Runtime;
  now : Z;
  next_timer : nat;
  pending : list (nat * Z);
  fired : list (Callback * Z)
}.

(** A clock at time [start] with no timer set and nothing fired yet. *)
Definition fresh_timers (rt : Runtime) (start : Z) (next : nat) : Timers :=
  {| runtime := rt; now := start; next_timer := next;
     pending := []; fired := [] |}.

(** [setTimeout(f, delay)]: the timer is due when the runtime's wait for
    [delay] is over. *)
Definition setTimeout (delay : Z) (t : Timers) : nat * Timers :=
  (next_timer t,
   {| runtime := runtime t; now := now t; next_timer := S (next_timer t);
      pending := pending t
                 ++ [(next_timer t, now t + timer_delay (runtime t) delay)];
      fired := fired t |}).

(** [clearTimeout(id)]: a handle that is not pending is ignored. *)
Definition clearTimeout (id : nat) (t : Timers) : Timers :=
  {| runtime := runtime t; now := now t; next_timer := next_timer t;
     pending := base.filter (λ p, p.1 ≠ id) (pending t);
     fired := fired t |}.

(** Timers fire by due time, and in the order they were set when due at
    the same time. *)
Fixpoint insert_due (p : nat * Z) (l : list (nat * Z)) : list (nat * Z) :=
  match l with
  | [] => [p]
  | q :: l' => if p.2 <=? q.2 then p :: l else q :: insert_due p l'
  end.

Definition by_due (l : list (nat * Z)) : list (nat * Z) := foldr insert_due [] l.

(** The clock moves on by [dt] milliseconds; every timer due by then calls
    [current], the function the timer closure finds in [callbackRef]. *)
Definition advance (current : Callback) (dt : Z) (t : Timers) : Timers :=
  let target := now t + Z.max 0 dt in
  let due := by_due (base.filter (λ p, p.2 <= target) (pending t)) in
  {| runtime := runtime t; now := target; next_timer := next_timer t;
     pending := base.filter (λ p, ¬ p.2 <= target) (pending t);
     fired := fired t ++ ((λ p, (current, p.2)) <$> due) |}.

End Timers.

(** ** [useTimeout] *)

Module UseTimeout.
Import React Timers.

(** The closure [set] with the [delay] it captured, and the closure
    [reset] with the [set] it captured ([clear] captures only the ref). *)
Record SetFn := { set_id : nat; set_delay : Z }.
Record ResetFn := { reset_id : nat; reset_set : SetFn }.

(** The cells of the hook: the two refs, the dependency arrays of the two
    effects, the three [useCallback] cells (closure and dependency array),
    and the allocation number of the next closure. *)
Record Hook := {
  callbackRef : Callback;
  timeoutRef : option nat;
  callback_deps : list Value;
  set_memo : SetFn * list Value;
  clear_memo : nat * list Value;
  timer_deps : list Value;
  reset_memo : ResetFn * list Value;
  next_closure : nat
}.

Definition with_callbackRef (callback : Callback) (h : Hook) : Hook :=
  {| callbackRef := callback; timeoutRef := timeoutRef h;
     callback_deps := callback_deps h; set_memo := set_memo h;
     clear_memo := clear_memo h; timer_deps := timer_deps h;
     reset_memo := reset_memo h; next_closure := next_closure h |}.

Definition with_timeoutRef (id : option nat) (h : Hook) : Hook :=
  {| callbackRef := callbackRef h; timeoutRef := id;
     callback_deps := callback_deps h; set_memo := set_memo h;
     clear_memo := clear_memo h; timer_deps := timer_deps h;
     reset_memo := reset_memo h; next_closure := next_closure h |}.

(** [timeoutRef.current = setTimeout(() => callbackRef.current(), delay)] *)
Definition set (f : SetFn) (s : Hook * Timers) : Hook * Timers :=
  let '(id, t) := setTimeout (set_delay f) s.2 in
  (with_timeoutRef (Some id) s.1, t).

(** [timeoutRef.current && clearTimeout(timeoutRef.current)]: a timer
    handle is truthy, [undefined] ([None]) is not. *)
Definition clear (s : Hook * Timers) : Hook * Timers :=
  match timeoutRef s.1 with
  | Some id => (s.1, clearTimeout id s.2)
  | None => s
  end.

(** [clear(); set()] *)
Definition reset (f : ResetFn) (s : Hook * Timers) : Hook * Timers :=
  set (reset_set f) (clear s).

(** [useCallback(make, nextDeps)] at a re-render: the memoised closure is
    kept unless the dependency array changed. *)
Definition useCallback {F : Type} (make : nat → F) (nextDeps : list Value)
    (memo : F * list Value) (next : nat) : (F * list Value) * nat :=
  if deps_changed nextDeps memo.2
  then ((make next, nextDeps), S next)
  else (memo, next).

(** The outcome of the render phase: the cells after it, and which of the
    two effects React scheduled. *)
Record Rendered := {
  cells : Hook;
  run_callback_effect : bool;
  run_timer_effect : bool
}.

(** The first render: refs are created, every closure is new and every
    effect is scheduled.  [first] numbers the first closure. *)
Definition render_first (callback : Callback) (delay : Z) (first : nat) : Rendered :=
  let set_fn := {| set_id := first; set_delay := delay |} in
  let clear_id := S first in
  let reset_fn := {| reset_id := S (S first); reset_set := set_fn |} in
  {| cells :=
       {| callbackRef := callback;            (* useRef(callback) *)
          timeoutRef := None;                 (* useRef() *)
          callback_deps := [VUser callback];
          set_memo := (set_fn, [VNum delay]);
          clear_memo := (clear_id, []);
          timer_deps := [VNum delay; VClosure first; VClosure clear_id];
          reset_memo := (reset_fn, [VClosure clear_id; VClosure first]);
          next_closure := S (S (S first)) |};
     run_callback_effect := true;
     run_timer_effect := true |}.

(** A later render. *)
Definition render (callback : Callback) (delay : Z) (h : Hook) : Rendered :=
  let '(set_m, n) :=
    useCallback (λ id, {| set_id := id; set_delay := delay |})
      [VNum delay] (set_memo h) (next_closure h) in
  let '(clear_m, n) := useCallback (λ id, id) [] (clear_memo h) n in
  let '(reset_m, n) :=
    useCallback (λ id, {| reset_id := id; reset_set := set_m.1 |})
      [VClosure clear_m.1; VClosure (set_id set_m.1)] (reset_memo h) n in
  let callback_deps' := [VUser callback] in
  let timer_deps' := [VNum delay; VClosure (set_id set_m.1); VClosure clear_m.1] in
  {| cells :=
       {| callbackRef := callbackRef h; timeoutRef := timeoutRef h;
          callback_deps := callback_deps';
          set_memo := set_m; clear_memo := clear_m;
          timer_deps := timer_deps';
          reset_memo := reset_m; next_closure := n |};
     run_callback_effect := deps_changed callback_deps' (callback_deps h);
     run_timer_effect := deps_changed timer_deps' (timer_deps h) |}.

(** Commit, first half: the cleanups of the effects that run again.  Only
    the timer effect has one, [clear]. *)
Definition commit_cleanups (r : Rendered) (t : Timers) : Hook * Timers :=
  if run_timer_effect r then clear (cells r, t) else (cells r, t).

(** Commit, second half: the effects, in the order of their declaration. *)
Definition commit_effects (callback : Callback) (r : Rendered)
    (s : Hook * Timers) : Hook * Timers :=
  let s := if run_callback_effect r
           then (with_callbackRef callback s.1, s.2) else s in
  if run_timer_effect r then set (set_memo s.1).1 s else s.

Definition mount (callback : Callback) (delay : Z) (first : nat) (t : Timers)
  : Hook * Timers :=
  let r := render_first callback delay first in
  commit_effects callback r (cells r, t).

Definition update (callback : Callback) (delay : Z) (s : Hook * Timers)
  : Hook * Timers :=
  let r := render callback delay s.1 in
  commit_effects callback r (commit_cleanups r s.2).

(** Unmounting runs the cleanup of the timer effect. *)
Definition unmount (s : Hook * Timers) : Hook * Timers := clear s.

(** The two functions of the object the hook returns. *)
Definition useTimeout_reset (s : Hook * Timers) : Hook * Timers :=
  reset (reset_memo s.1).1 s.

Definition useTimeout_clear (s : Hook * Timers) : Hook * Timers := clear s.

(** Time passes. *)
Definition elapse (dt : Z) (s : Hook * Timers) : Hook * Timers :=
  (s.1, advance (callbackRef s.1) dt s.2).

Inductive Step :=
| Render (callback : Callback) (delay : Z)
| Reset
| Clear
| Elapse (dt : Z).

Definition step (s : Hook * Timers) (e : Step) : Hook * Timers :=
  match e with
  | Render callback delay => update callback delay s
  | Reset => useTimeout_reset s
  | Clear => useTimeout_clear s
  | Elapse dt => elapse dt s
  end.

Definition run (es : list Step) (s : Hook * Timers) : Hook * Timers :=
  foldl step s es.

(** The delay the closures of the last render captured. *)
Definition current_delay (h : Hook) : Z := set_delay (set_memo h).1.

(** The reading of the sentence that, for every delay, the callback fires
    after the delay: nothing fires before the delay passed at the mount is
    over. *)
Definition waits_the_delay : Prop :=
  ∀ (rt : Runtime) (callback : Callback) (delay : Z)
    (first : nat) (start : Z) (next : nat) (dt : Z),
    0 ≤ dt < delay →
    fired (elapse dt (mount callback delay first
                        (fresh_timers rt start next))).2
    = [].

(** The cells after a render with [callback] that leaves the delay as it
    is, and its commit: only the callback ref and the dependency array of
    its effect are (re)written. *)
Definition rendered_with (callback : Callback) (h : Hook) : Hook :=
  {| callbackRef := callback; timeoutRef := timeoutRef h;
     callback_deps := [VUser callback]; set_memo := set_memo h;
     clear_memo := clear_memo h; timer_deps := timer_deps h;
     reset_memo := reset_memo h; next_closure := next_closure h |}.

(** The memo cells agree with each other: [reset] holds the current [set],
    every remembered dependency array is the one of the current closures,
    and the closures in use are older than the next one. *)
Definition coherent (h : Hook) : Prop :=
  let f := (set_memo h).1 in
  (set_memo h).2 = [VNum (set_delay f)]
  ∧ (clear_memo h).2 = []
  ∧ timer_deps h
    = [VNum (set_delay f); VClosure (set_id f); VClosure (clear_memo h).1]
  ∧ reset_set (reset_memo h).1 = f
  ∧ (reset_memo h).2 = [VClosure (clear_memo h).1; VClosure (set_id f)]
  ∧ (set_id f < next_closure h)%nat
  ∧ callback_deps h = [VUser (callbackRef h)].

(** At most one timer is pending, and [timeoutRef] holds its handle. *)
Definition single_timer (s : Hook * Timers) : Prop :=
  pending s.2 = []
  ∨ ∃ id due, timeoutRef s.1 = Some id ∧ pending s.2 = [(id, due)].

(** A step that does not set a timer when the delay is [delay]: time
    passing, [clear], and a re-render that passes the same delay. *)
Definition keeps_timer (delay : Z) (e : Step) : Prop :=
  match e with
  | Render _ delay' => delay' = delay
  | Reset => False
  | Clear => True
  | Elapse _ => True
  end.

End UseTimeout.

(** ** [useDelay] *)

Module UseDelay.
Import React Timers.

(** The cells of the [useTimeout] the hook calls, and the dependency array
    React remembers for the effect [useEffect(reset, [...dependencies, reset])]. *)
Record Hook := {
  timeout : UseTimeout.Hook;
  reset_deps : list Value
}.

(** [[...dependencies, reset]] *)
Definition reset_effect_deps (dependencies : list Value) (h : UseTimeout.Hook)
  : list Value :=
  dependencies ++ [VClosure (UseTimeout.reset_id (UseTimeout.reset_memo h).1)].

Definition lift (f : UseTimeout.Hook * Timers → UseTimeout.Hook * Timers)
    (s : Hook * Timers) : Hook * Timers :=
  let s' := f (timeout s.1, s.2) in
  ({| timeout := s'.1; reset_deps := reset_deps s.1 |}, s'.2).

(** The two effects of [useDelay] itself: [reset] (when scheduled), then
    [clear] (when scheduled).  Neither returns a cleanup. *)
Definition own_effects (run_reset run_clear : bool)
    (s : UseTimeout.Hook * Timers) : UseTimeout.Hook * Timers :=
  let s := if run_reset then UseTimeout.useTimeout_reset s else s in
  if run_clear then UseTimeout.useTimeout_clear s else s.

(** First render and commit: the effects of [useTimeout], then
    [useEffect(reset, ...)], then [useEffect(clear, [])]. *)
Definition mount (callback : Callback) (delay : Z) (dependencies : list Value)
    (first : nat) (t : Timers) : Hook * Timers :=
  let s := UseTimeout.mount callback delay first t in
  let s' := own_effects true true s in
  ({| timeout := s'.1; reset_deps := reset_effect_deps dependencies s'.1 |},
   s'.2).

(** A later render and commit: the cleanups first (only [useTimeout] has
    one), then the effects whose dependency arrays changed. *)
Definition update (callback : Callback) (delay : Z) (dependencies : list Value)
    (s : Hook * Timers) : Hook * Timers :=
  let r := UseTimeout.render callback delay (timeout s.1) in
  let nextDeps := reset_effect_deps dependencies (UseTimeout.cells r) in
  let run_reset := deps_changed nextDeps (reset_deps s.1) in
  let run_clear := deps_changed [] [] in
  let s' := UseTimeout.commit_cleanups r s.2 in
  let s' := UseTimeout.commit_effects callback r s' in
  let s' := own_effects run_reset run_clear s' in
  ({| timeout := s'.1; reset_deps := nextDeps |}, s'.2).

Definition unmount (s : Hook * Timers) : Hook * Timers :=
  lift UseTimeout.unmount s.

Definition elapse (dt : Z) (s : Hook * Timers) : Hook * Timers :=
  lift (UseTimeout.elapse dt) s.

Inductive Step :=
| Render (callback : Callback) (delay : Z) (dependencies : list Value)
| Elapse (dt : Z).

Definition step (s : Hook * Timers) (e : Step) : Hook * Timers :=
  match e with
  | Render callback delay dependencies => update callback delay dependencies s
  | Elapse dt => elapse dt s
  end.

Definition run (es : list Step) (s : Hook * Timers) : Hook * Timers :=
  foldl step s es.

(** The [dependencies] of the last render: the remembered array without
    its last entry, [reset]. *)
Definition dependencies_of (h : Hook) : list Value :=
  take (length (reset_deps h) - 1) (reset_deps h).

(** Between renders with [dependencies]: the cells of the inner
    [useTimeout] are coherent, at most one timer is pending, and the
    remembered dependency array is [[...dependencies, reset]]. *)
Definition settled (dependencies : list Value) (s : Hook * Timers) : Prop :=
  UseTimeout.coherent (timeout s.1)
  ∧ UseTimeout.single_timer (timeout s.1, s.2)
  ∧ reset_deps s.1 = reset_effect_deps dependencies (timeout s.1).



(** The reading of the sentence that the callback fires only after the
    dependencies have remained unchanged for the given delay: after a
    render with changed dependencies nothing fires before the delay that
    render passed is over. *)
Definition waits_the_delay : Prop :=
  ∀ (rt : Runtime) (callback : Callback) (delay : Z)
    (dependencies dependencies' : list Value)
    (first : nat) (start : Z) (next : nat) (dt : Z),
    length dependencies' = length dependencies →
    dependencies' ≠ dependencies →
    0 ≤ dt < delay →
    fired (elapse dt
             (update callback delay dependencies'
                (mount callback delay dependencies first
                   (fresh_timers rt start next)))).2
    = [].



End UseDelay.

(** * Properties *)

(** ** React's comparison of dependency arrays *)

Section HookInputs.
Import React.

Lemma object_is_true (a b : Value) : object_is a b = true ↔ a = b.
Proof. unfold object_is. apply bool_decide_eq_true. Qed.

Lemma areHookInputsEqual_refl (deps : list Value) :
  areHookInputsEqual deps deps = true.
Proof.
  induction deps as [|d deps IH]; simpl; [done|].
  unfold object_is. by rewrite bool_decide_eq_true_2.
Qed.

(** On arrays of one length the comparison is equality. *)
Lemma areHookInputsEqual_same_length (nextDeps prevDeps : list Value) :
  length nextDeps = length prevDeps →
  areHookInputsEqual nextDeps prevDeps = true ↔ nextDeps = prevDeps.
Proof.
  revert prevDeps.
  induction nextDeps as [|n nextDeps IH]; intros [|p prevDeps] Hlen;
    simpl in *; try done.
  unfold object_is. case_bool_decide as Hnp.
  - subst p. rewrite IH by lia. split; [by intros ->|by intros [= ->]].
  - split; [done|]. intros [= -> _]. done.
Qed.

Lemma deps_changed_refl (deps : list Value) : deps_changed deps deps = false.
Proof. unfold deps_changed. by rewrite areHookInputsEqual_refl. Qed.

Lemma deps_changed_same_length (nextDeps prevDeps : list Value) :
  length nextDeps = length prevDeps →
  deps_changed nextDeps prevDeps = true ↔ nextDeps ≠ prevDeps.
Proof.
  intros Hlen. unfold deps_changed. rewrite negb_true_iff.
  rewrite <- (areHookInputsEqual_same_length _ _ Hlen).
  destruct (areHookInputsEqual nextDeps prevDeps); split; congruence.
Qed.

Lemma deps_changed_cons (n p : Value) (nextDeps prevDeps : list Value) :
  deps_changed (n :: nextDeps) (p :: prevDeps)
  = if bool_decide (n = p) then deps_changed nextDeps prevDeps else true.
Proof. unfold deps_changed. simpl. unfold object_is. by case_bool_decide. Qed.

Lemma deps_changed_nil (prevDeps : list Value) : deps_changed [] prevDeps = false.
Proof. reflexivity. Qed.

(** A difference inside the common prefix is reported whatever follows. *)
Lemma deps_changed_app (nextDeps prevDeps next' prev' : list Value) :
  length nextDeps = length prevDeps →
  nextDeps ≠ prevDeps →
  deps_changed (nextDeps ++ next') (prevDeps ++ prev') = true.
Proof.
  revert prevDeps.
  induction nextDeps as [|n nextDeps IH]; intros [|p prevDeps] Hlen Hne;
    simpl in *; try done.
  unfold deps_changed in *. simpl. unfold object_is.
  case_bool_decide as Hnp; [|done].
  subst p. apply IH; [lia|]. intros ->. done.
Qed.


Lemma deps_unchanged_app (deps next' prev' : list Value) :
  deps_changed (deps ++ next') (deps ++ prev') = deps_changed next' prev'.
Proof.
  unfold deps_changed. f_equal.
  induction deps as [|d deps IH]; simpl; [done|].
  unfold object_is. by rewrite bool_decide_eq_true_2.
Qed.

End HookInputs.

(** ** [useToggle] *)

Section ToggleFacts.
Import React UseToggle.

Lemma change_boolean (b toggle : bool) : change (Some b) toggle = b.
Proof. reflexivity. Qed.

Lemma change_null (toggle : bool) : change None toggle = negb toggle.
Proof. reflexivity. Qed.

(** C10. [changeToggle] called with a boolean [b] sets the state to [b]
    whatever the state was; called with [null] it negates the state, so
    two such calls in a row give the state back. *)
Theorem useToggle_change_sets_or_negates (toggle : bool) :
  (∀ b, change (Some b) toggle = b)
  ∧ change None toggle = negb toggle
  ∧ change None (change None toggle) = toggle.
Proof.
  split; [intros b; apply change_boolean|].
  split; [apply change_null|].
  rewrite !change_null. apply negb_involutive.
Qed.

End ToggleFacts.

(** ** [useArray] *)

Section ArrayFacts.
Import React UseArray.
Context {A : Type}.
Implicit Types (prev : list A) (index : Z) (value : A).

Lemma clamp_index_in_range (len rel : Z) :
  0 ≤ rel ≤ len → clamp_index len rel = rel.
Proof.
  intros H. unfold clamp_index.
  destruct (Z.ltb_spec rel 0); lia.
Qed.

(** [slice] between two bounds inside the array. *)
Lemma slice_in_range (a b : Z) prev :
  0 ≤ a ≤ array_length prev → 0 ≤ b ≤ array_length prev →
  slice a b prev = take (Z.to_nat b - Z.to_nat a) (drop (Z.to_nat a) prev).
Proof.
  unfold array_length. intros Ha Hb. unfold slice.
  rewrite !clamp_index_in_range by done.
  f_equal. lia.
Qed.

(** [slice] whose start is the length of the array: nothing is left. *)
Lemma slice_from_length (b : Z) prev :
  slice (array_length prev) b prev = [].
Proof.
  unfold slice, array_length.
  rewrite (clamp_index_in_range _ (Z.of_nat (length prev))) by lia.
  rewrite Nat2Z.id, drop_all. by rewrite take_nil.
Qed.

Lemma remove_slices index prev :
  0 ≤ index < array_length prev →
  dispatch (remove index) prev
  = take (Z.to_nat index) prev
      ++ drop (S (Z.to_nat index)) (take (length prev - 1) prev).
Proof.
  unfold array_length. intros Hi. simpl.
  rewrite slice_in_range by (unfold array_length; lia).
  replace (Z.to_nat index - Z.to_nat 0)%nat with (Z.to_nat index) by lia.
  simpl (drop (Z.to_nat 0) prev). f_equal.
  destruct (decide (index = Z.of_nat (length prev) - 1)) as [->|Hne].
  - replace (Z.of_nat (length prev) - 1 + 1) with (array_length prev)
      by (unfold array_length; lia).
    rewrite slice_from_length.
    symmetry. apply drop_ge. rewrite length_take. lia.
  - rewrite slice_in_range by (unfold array_length; lia).
    rewrite take_drop_commute. unfold array_length.
    f_equal; [lia|]. f_equal. lia.
Qed.

Lemma update_slices index value prev :
  0 ≤ index < array_length prev →
  dispatch (update index value) prev
  = take (Z.to_nat index) prev
      ++ value :: drop (S (Z.to_nat index)) (take (length prev - 1) prev).
Proof.
  intros Hi. pose proof (remove_slices index prev Hi) as Hr.
  simpl in *. apply app_inj_1 in Hr as [Hl Hr].
  - by rewrite Hl, Hr.
  - unfold array_length in Hi.
    rewrite slice_in_range by (unfold array_length; lia).
    rewrite !length_take, length_drop. lia.
Qed.

(** C2. For an index inside the array, [remove] keeps the elements before
    the index and those from [index + 1] up to, but without, the last one,
    and [update] puts the new value between the same two pieces: both work
    on the array without its last element.  When the index is not the last
    one, [remove] returns [n - 2] elements and [update] returns [n - 1],
    the update in place of the array cut by one. *)
Theorem useArray_remove_update_drop_last index value prev :
  0 ≤ index < array_length prev →
  let i := Z.to_nat index in
  let n := length prev in
  dispatch (remove index) prev
    = slice 0 index prev ++ slice (index + 1) (array_length prev - 1) prev
  ∧ dispatch (update index value) prev
    = slice 0 index prev ++ [value]
        ++ slice (index + 1) (array_length prev - 1) prev
  ∧ slice 0 index prev = take i prev
  ∧ slice (index + 1) (array_length prev - 1) prev
    = drop (S i) (take (n - 1) prev)
  ∧ dispatch (remove index) prev = delete i (take (n - 1) prev)
  ∧ dispatch (update index value) prev
    = take i prev ++ value :: drop (S i) (take (n - 1) prev)
  ∧ (index < array_length prev - 1 →
     Z.of_nat (length (dispatch (remove index) prev)) = array_length prev - 2
     ∧ dispatch (remove index) prev ≠ delete i prev
     ∧ dispatch (update index value) prev = <[i := value]> (take (n - 1) prev)
     ∧ dispatch (update index value) prev ≠ <[i := value]> prev).
Proof.
  intros Hi i n.
  pose proof (remove_slices index prev Hi) as Hrem.
  pose proof (update_slices index value prev Hi) as Hupd.
  fold i n in Hrem, Hupd.
  assert (Hpre : slice 0 index prev = take i prev).
  { rewrite slice_in_range by (unfold array_length in *; lia).
    simpl. f_equal. lia. }
  assert (Hsuf : slice (index + 1) (array_length prev - 1) prev
                 = drop (S i) (take (n - 1) prev)).
  { simpl in Hrem. rewrite Hpre in Hrem. by apply app_inv_head in Hrem. }
  assert (Hdel : dispatch (remove index) prev = delete i (take (n - 1) prev)).
  { rewrite Hrem, delete_take_drop, take_take.
    do 2 f_equal. unfold array_length in Hi. lia. }
  unfold array_length in *.
  repeat split; try done.
  - rewrite Hrem, length_app, length_drop, !length_take. lia.
  - intros Heq. apply (f_equal length) in Heq.
    rewrite Hrem, length_app, length_drop, !length_take in Heq.
    rewrite length_delete in Heq; [lia|].
    apply lookup_lt_is_Some. lia.
  - rewrite Hupd, insert_take_drop by (rewrite length_take; lia).
    rewrite take_take. do 2 f_equal. lia.
  - intros Heq. apply (f_equal length) in Heq.
    rewrite Hupd, length_app, length_insert in Heq. simpl in Heq.
    rewrite length_drop, !length_take in Heq. lia.
Qed.

End ArrayFacts.

(** The theorem at the array [[10; 20; 30; 40]] and index 1. *)
Lemma useArray_remove_update_drop_last_witness :
  React.dispatch (UseArray.remove 1) [10; 20; 30; 40] = [10; 30]
  ∧ React.dispatch (UseArray.update 1 99) [10; 20; 30; 40] = [10; 99; 30].
Proof.
  pose proof (useArray_remove_update_drop_last 1 99 [10; 20; 30; 40]) as H.
  assert (Hi : 0 ≤ 1 < UseArray.array_length [10; 20; 30; 40])
    by (unfold UseArray.array_length; simpl; lia).
  destruct (H Hi) as (_ & _ & _ & _ & Hr & Hu & _).
  split; [exact Hr|exact Hu].
Defined.

(** ** [useLocalStorage] *)

Section LocalStorageFacts.
Import React UseLocalStorage.
Implicit Types (key initial : string) (storage : gmap string string).

Lemma initial_data_stored key initial storage (local : string) :
  getItem key storage = Some local → local ≠ ""%string →
  initial_data key initial storage = local.
Proof.
  intros Hget Hne. unfold initial_data. rewrite Hget. simpl.
  by rewrite bool_decide_eq_false_2.
Qed.

Lemma initial_data_absent key initial storage :
  getItem key storage = None → initial_data key initial storage = initial.
Proof. intros Hget. unfold initial_data. by rewrite Hget. Qed.

Lemma initial_data_empty key initial storage :
  getItem key storage = Some ""%string →
  initial_data key initial storage = initial.
Proof. intros Hget. unfold initial_data. by rewrite Hget. Qed.

Lemma mount_synced key initial storage :
  synced key (mount key initial storage).
Proof.
  unfold mount, commit, synced, getItem, setItem. simpl.
  split; [done|]. apply lookup_insert_eq.
Qed.

Lemma commit_synced key key' (h : Hook) storage (d : string) :
  effect_deps h = Some [VStr key; VStr d] →
  getItem key storage = Some d →
  synced key' (commit key' (h, storage)).
Proof.
  intros Hdeps Hget. unfold commit, synced, getItem, setItem in *. simpl.
  split; [done|]. rewrite Hdeps.
  destruct (deps_changed _ _) eqn:Hch; [apply lookup_insert_eq|].
  unfold deps_changed in Hch. apply negb_false_iff in Hch.
  apply areHookInputsEqual_same_length in Hch; [|done].
  by injection Hch as -> ->.
Qed.

Lemma update_synced key key' (s : Hook * gmap string string) :
  synced key s → synced key' (update key' s).
Proof.
  destruct s as [h storage]. intros [Hdeps Hget].
  by apply (commit_synced key key' h storage (data h)).
Qed.

Lemma setData_synced key key' a (s : Hook * gmap string string) :
  synced key s → synced key' (setData a key' s).
Proof.
  destruct s as [h storage]. intros [Hdeps Hget]. unfold setData, update.
  by apply (commit_synced key key' _ storage (data h)).
Qed.

Lemma setData_data a key (s : Hook * gmap string string) :
  useLocalStorage (setData a key s) = dispatch a (data s.1).
Proof. destruct s as [h storage]. reflexivity. Qed.

(** An entry is taken over as the initial state when it is not the empty
    string, the initial value is taken when there is no entry, and after
    the first commit, every re-render and every [setData] the storage
    holds the current state under the current key. *)
Lemma useLocalStorage_reads_and_writes_back key initial storage :
  (∀ local, getItem key storage = Some local → local ≠ ""%string →
     useLocalStorage (mount key initial storage) = local)
  ∧ (getItem key storage = None →
     useLocalStorage (mount key initial storage) = initial)
  ∧ synced key (mount key initial storage)
  ∧ (∀ s key', synced key s → synced key' (update key' s))
  ∧ (∀ s a key', synced key s →
       synced key' (setData a key' s)
       ∧ useLocalStorage (setData a key' s) = dispatch a (data s.1)).
Proof.
  split; [intros local Hget Hne; by apply initial_data_stored|].
  split; [apply initial_data_absent|].
  split; [apply mount_synced|].
  split; [intros s key'; apply update_synced|].
  intros s a key' Hs. split; [by eapply setData_synced|apply setData_data].
Qed.

(** C9. When the storage holds the empty string under the key, the state is
    initialised to the initial value, and the first commit writes that
    initial value over the stored empty string. *)
Theorem useLocalStorage_empty_string_treated_as_absent key initial storage :
  getItem key storage = Some ""%string →
  truthy (getItem key storage) = false
  ∧ useLocalStorage (mount key initial storage) = initial
  ∧ getItem key (mount key initial storage).2 = Some initial.
Proof.
  intros Hget. split; [by rewrite Hget|].
  assert (Hinit : useLocalStorage (mount key initial storage) = initial)
    by (by apply initial_data_empty).
  split; [done|].
  destruct (mount_synced key initial storage) as [_ Hsync].
  unfold useLocalStorage in Hinit. by rewrite Hsync, Hinit.
Qed.

Lemma useLocalStorage_empty_string_treated_as_absent_witness :
  useLocalStorage (mount "lang" "en" {["lang" := ""]}) = "en"%string
  ∧ getItem "lang" (mount "lang" "en" {["lang" := ""]}).2 = Some "en"%string.
Proof.
  assert (Hget : getItem "lang" ({["lang" := ""]} : gmap string string)
                 = Some ""%string) by reflexivity.
  destruct (useLocalStorage_empty_string_treated_as_absent
              "lang" "en" {["lang" := ""]} Hget) as (_ & Hdata & Hstore).
  split; [exact Hdata|exact Hstore].
Defined.

(** C1, at the input where the code departs from it: the storage holds an
    entry under the key (the empty string), yet the state is initialised
    to the initial value and the entry is overwritten. *)
Theorem useLocalStorage_stored_empty_string_is_lost :
  let storage : gmap string string := {["theme" := ""]} in
  getItem "theme" storage = Some ""%string
  ∧ useLocalStorage (mount "theme" "dark" storage) = "dark"%string
  ∧ useLocalStorage (mount "theme" "dark" storage) ≠ ""%string
  ∧ getItem "theme" (mount "theme" "dark" storage).2 = Some "dark"%string.
Proof.
  simpl. split; [reflexivity|].
  split; [reflexivity|].
  split; [discriminate|].
  unfold mount, commit, getItem, setItem. simpl. apply lookup_insert_eq.
Qed.

End LocalStorageFacts.

(** ** [useUpdateEffect] *)

Section UpdateEffectFacts.
Import React UseUpdateEffect.
Implicit Types (callback : Callback) (dependencies : list Value) (h : Hook).

Lemma updateEffect_mount_spec callback dependencies :
  mount callback dependencies
  = {| isFirstRender := false; effect_deps := dependencies; called := [] |}.
Proof. reflexivity. Qed.

Lemma updateEffect_update_spec callback dependencies h :
  isFirstRender h = false →
  update callback dependencies h
  = {| isFirstRender := false; effect_deps := dependencies;
       called := called h ++
                 (if deps_changed dependencies (effect_deps h)
                  then [callback] else []) |}.
Proof.
  intros Hfirst. unfold update, effect, with_deps.
  destruct (deps_changed _ _); simpl; rewrite Hfirst; [done|].
  by rewrite app_nil_r.
Qed.

Lemma updateEffect_runs_callback_spec callback dependencies h :
  isFirstRender h = false →
  runs_callback callback dependencies h
  = deps_changed dependencies (effect_deps h).
Proof.
  intros Hfirst. unfold runs_callback. rewrite updateEffect_update_spec by done. simpl.
  destruct (deps_changed _ _).
  - apply bool_decide_eq_true_2. intros Heq.
    apply (f_equal length) in Heq. rewrite length_app in Heq. simpl in Heq. lia.
  - apply bool_decide_eq_false_2. rewrite app_nil_r. auto.
Qed.

Lemma updateEffect_run_spec renders h :
  isFirstRender h = false →
  isFirstRender (run renders h) = false
  ∧ called (run renders h)
    = called h ++ changed_renders (effect_deps h) renders.
Proof.
  revert h. induction renders as [|[callback dependencies] renders IH];
    intros h Hfirst; simpl.
  - by rewrite app_nil_r.
  - destruct (IH (update callback dependencies h)) as [IH1 IH2].
    { by rewrite updateEffect_update_spec. }
    fold (run renders (update callback dependencies h)).
    split; [done|]. rewrite IH2, updateEffect_update_spec by done. simpl.
    by rewrite <- app_assoc.
Qed.

(** C5. The first render does not call the callback.  A later render calls
    its callback exactly when React's comparison of the dependency arrays
    reports a change, so over any sequence of renders the calls are those
    of the renders with a reported change, in order. *)
Theorem useUpdateEffect_runs_on_changes_only callback dependencies :
  called (mount callback dependencies) = []
  ∧ (∀ renders,
       called (run renders (mount callback dependencies))
       = changed_renders dependencies renders)
  ∧ (∀ renders callback' dependencies',
       let h := run renders (mount callback dependencies) in
       runs_callback callback' dependencies' h
       = deps_changed dependencies' (effect_deps h)
       ∧ called (update callback' dependencies' h)
         = called h ++ (if deps_changed dependencies' (effect_deps h)
                        then [callback'] else [])).
Proof.
  split; [done|].
  split.
  - intros renders.
    destruct (updateEffect_run_spec renders (mount callback dependencies)) as [_ ->]; done.
  - intros renders callback' dependencies' h.
    destruct (updateEffect_run_spec renders (mount callback dependencies)) as [Hfirst _];
      [done|].
    split; [by apply updateEffect_runs_callback_spec|].
    by rewrite updateEffect_update_spec.
Qed.

(** Four renders after the mount; the second and the fourth change the
    dependency. *)
Example useUpdateEffect_run_example :
  called (run [(1, [VUser 0]); (2, [VUser 1]); (3, [VUser 1]); (4, [VUser 2])]
            (mount 0 [VUser 0]))
  = [2; 4].
Proof. reflexivity. Qed.

End UpdateEffectFacts.

(** ** The window's listener list *)

Section WindowFacts.
Import Window.
Implicit Types (w : Window) (ty : EventType) (fn : FnRef).

Lemma addEventListener_elem ty fn w :
  (ty, fn) ∈ listeners (addEventListener ty fn w).
Proof.
  unfold addEventListener. case_bool_decide; [done|].
  simpl. set_solver.
Qed.

Lemma addEventListener_size ty fn w :
  innerWidth (addEventListener ty fn w) = innerWidth w
  ∧ innerHeight (addEventListener ty fn w) = innerHeight w.
Proof. unfold addEventListener. by case_bool_decide. Qed.

Lemma addEventListener_fresh ty fn w :
  (ty, fn) ∉ listeners w →
  listeners (addEventListener ty fn w) = listeners w ++ [(ty, fn)].
Proof.
  intros Hfresh. unfold addEventListener.
  by rewrite bool_decide_eq_false_2.
Qed.

Lemma filter_ne_id (l : Listener) (ls : list Listener) :
  l ∉ ls → base.filter (λ l', l' ≠ l) ls = ls.
Proof.
  intros Hl. induction ls as [|a ls IH]; [done|].
  rewrite filter_cons. apply not_elem_of_cons in Hl as [Hne Hl].
  rewrite decide_True by done. by rewrite IH.
Qed.

(** Removing a listener right after adding it: what is left is the list
    before, without that listener. *)
Lemma remove_after_add ty fn w :
  listeners (removeEventListener ty fn (addEventListener ty fn w))
  = base.filter (λ l, l ≠ (ty, fn)) (listeners w).
Proof.
  unfold removeEventListener, addEventListener.
  case_bool_decide; simpl; [done|].
  rewrite filter_app, filter_cons, decide_False by auto.
  by rewrite filter_nil, app_nil_r.
Qed.

Lemma removeEventListener_not_elem ty fn w :
  (ty, fn) ∉ listeners (removeEventListener ty fn w).
Proof.
  unfold removeEventListener. simpl. rewrite list_elem_of_filter. tauto.
Qed.

Lemma window_wf_fresh ty w : window_wf w → (ty, next_fn w) ∉ listeners w.
Proof. intros [_ Hlt] Hin. apply Hlt in Hin. lia. Qed.

Lemma handlers_elem ty fn w : fn ∈ handlers ty w ↔ (ty, fn) ∈ listeners w.
Proof.
  unfold handlers. rewrite list_elem_of_fmap. split.
  - intros ([ty' fn'] & -> & Hin). apply list_elem_of_filter in Hin as [Hty Hin].
    simpl in *. by subst.
  - intros Hin. exists (ty, fn). split; [done|].
    apply list_elem_of_filter. done.
Qed.

End WindowFacts.

(** ** [useWindowSize] *)

Section WindowSizeFacts.
Import React Window UseWindowSize.
Implicit Types (w : Window) (h : Hook) (fn : FnRef).

Lemma windowSize_update_unchanged (s : Hook * Window) : update s = s.
Proof. reflexivity. Qed.

(** Delivering an event to a list of functions: the hook's own closure, if
    it is among them, stores the window's size. *)
Lemma windowSize_foldl_call_spec w h fn (fns : list FnRef) :
  handleWindowResize h = Some fn →
  handleWindowResize (foldl (call w) h fns) = Some fn
  ∧ windowSize (foldl (call w) h fns)
    = if bool_decide (fn ∈ fns)
      then {| width := innerWidth w; height := innerHeight w |}
      else windowSize h.
Proof.
  revert h. induction fns as [|f fns IH]; intros h Hfn.
  - split; [done|]. rewrite bool_decide_eq_false_2; [done|]. set_solver.
  - change (foldl (call w) h (f :: fns))
      with (foldl (call w) (call w h f) fns).
    destruct (decide (f = fn)) as [->|Hne].
    + replace (call w h fn) with (handleWindowResize_body w h)
        by (unfold call; by rewrite Hfn, bool_decide_eq_true_2).
      assert (Hfn' : handleWindowResize (handleWindowResize_body w h) = Some fn) by done.
      pose proof (IH _ Hfn') as [IH1 IH2].
      split; [done|]. rewrite IH2.
      rewrite (bool_decide_eq_true_2 (fn ∈ fn :: fns)) by (by left).
      by case_bool_decide.
    + replace (call w h f) with h
        by (unfold call; rewrite Hfn, bool_decide_eq_false_2; congruence).
      pose proof (IH h Hfn) as [IH1 IH2]. split; [done|]. rewrite IH2.
      rewrite (bool_decide_ext (fn ∈ f :: fns) (fn ∈ fns)); [done|].
      rewrite elem_of_cons.
      split; [intros [Heq|Hin]; [congruence|done]|by right].
Qed.

(** While the hook is mounted its closure is registered for [resize], the
    listener list is the one the mount left, and the state is the size of
    the window. *)
Lemma windowSize_mounted_invariant w (es : list Step) :
  let s := run es (mount w) in
  handleWindowResize s.1 = Some (next_fn w)
  ∧ (resize, next_fn w) ∈ listeners s.2
  ∧ listeners s.2 = listeners (mount w).2
  ∧ useWindowSize s
    = {| width := innerWidth s.2; height := innerHeight s.2 |}.
Proof.
  induction es as [|e es IH] using rev_ind; simpl.
  - repeat split; try done; [apply addEventListener_elem|].
    destruct (addEventListener_size resize (next_fn w) (alloc_fn w).2)
      as [Hw Hh].
    unfold useWindowSize. simpl in *. by rewrite Hw, Hh.
  - unfold run in *. rewrite foldl_snoc. simpl in IH.
    destruct (foldl step (mount w) es) as [h w'] eqn:Hs.
    destruct IH as (Hfn & Hin & Hls & Hsize). simpl in *.
    destruct e as [|nw nh]; simpl.
    + by rewrite windowSize_update_unchanged.
    + destruct (windowSize_foldl_call_spec (with_size nw nh w') h (next_fn w)
                  (handlers resize (with_size nw nh w')) Hfn) as [H1 H2].
      repeat split; try done.
      unfold useWindowSize. simpl. rewrite H2.
      rewrite bool_decide_eq_true_2; [done|]. by apply handlers_elem.
Qed.

Lemma windowSize_on_resize_state w (es : list Step) (newWidth newHeight : Z) :
  useWindowSize (on_resize newWidth newHeight (run es (mount w)))
  = {| width := newWidth; height := newHeight |}.
Proof.
  pose proof (windowSize_mounted_invariant w (es ++ [Resize newWidth newHeight])) as H.
  simpl in H. unfold run in *. rewrite foldl_snoc in H. simpl in H.
  destruct H as (_ & _ & _ & ->).
  by destruct (foldl step (mount w) es).
Qed.

Lemma windowSize_unmount_listeners w (es : list Step) :
  listeners (unmount (run es (mount w))).2
  = base.filter (λ l, l ≠ (resize, next_fn w)) (listeners w).
Proof.
  destruct (windowSize_mounted_invariant w es) as (Hfn & _ & Hls & _).
  unfold unmount, cleanup.
  destruct (run es (mount w)) as [h w'] eqn:Hs. simpl in *.
  rewrite Hfn. simpl. rewrite Hls.
  apply (remove_after_add resize (next_fn w) (alloc_fn w).2).
Qed.

End WindowSizeFacts.

(** ** [useMouse] *)

Section MouseFacts.
Import React Window UseMouse.
Implicit Types (w : Window) (h : Hook) (fn : FnRef).

Lemma mouse_update_unchanged (s : Hook * Window) : update s = s.
Proof. reflexivity. Qed.

Lemma mouse_foldl_call_spec (event : MouseEvent) h fn (fns : list FnRef) :
  handleMouseMovement h = Some fn →
  handleMouseMovement (foldl (call event) h fns) = Some fn
  ∧ mousePosition (foldl (call event) h fns)
    = if bool_decide (fn ∈ fns)
      then {| x := clientX event; y := clientY event |}
      else mousePosition h.
Proof.
  revert h. induction fns as [|f fns IH]; intros h Hfn.
  - split; [done|]. rewrite bool_decide_eq_false_2; [done|]. set_solver.
  - change (foldl (call event) h (f :: fns))
      with (foldl (call event) (call event h f) fns).
    destruct (decide (f = fn)) as [->|Hne].
    + replace (call event h fn) with (handleMouseMovement_body event h)
        by (unfold call; by rewrite Hfn, bool_decide_eq_true_2).
      assert (Hfn' : handleMouseMovement (handleMouseMovement_body event h) = Some fn) by done.
      pose proof (IH _ Hfn') as [IH1 IH2].
      split; [done|]. rewrite IH2.
      rewrite (bool_decide_eq_true_2 (fn ∈ fn :: fns)) by (by left).
      by case_bool_decide.
    + replace (call event h f) with h
        by (unfold call; rewrite Hfn, bool_decide_eq_false_2; congruence).
      pose proof (IH h Hfn) as [IH1 IH2]. split; [done|]. rewrite IH2.
      rewrite (bool_decide_ext (fn ∈ f :: fns) (fn ∈ fns)); [done|].
      rewrite elem_of_cons.
      split; [intros [Heq|Hin]; [congruence|done]|by right].
Qed.

Lemma mouse_mounted_invariant w (es : list Step) :
  let s := run es (mount w) in
  handleMouseMovement s.1 = Some (next_fn w)
  ∧ (mousemove, next_fn w) ∈ listeners s.2
  ∧ s.2 = (mount w).2.
Proof.
  induction es as [|e es IH] using rev_ind; simpl.
  - repeat split; try done. apply addEventListener_elem.
  - unfold run in *. rewrite foldl_snoc. simpl in IH.
    destruct (foldl step (mount w) es) as [h w'] eqn:Hs.
    destruct IH as (Hfn & Hin & Hw). simpl in *.
    destruct e as [|event]; simpl.
    + done.
    + by destruct (mouse_foldl_call_spec event h (next_fn w)
                     (handlers mousemove w') Hfn) as [H1 H2].
Qed.

Lemma on_mousemove_state w (es : list Step) (event : MouseEvent) :
  useMouse (on_mousemove event (run es (mount w)))
  = {| x := clientX event; y := clientY event |}.
Proof.
  destruct (mouse_mounted_invariant w es) as (Hfn & Hin & _).
  destruct (run es (mount w)) as [h w'] eqn:Hs. simpl in *.
  destruct (mouse_foldl_call_spec event h (next_fn w)
              (handlers mousemove w') Hfn) as [_ H2].
  unfold useMouse. simpl. rewrite H2.
  rewrite bool_decide_eq_true_2; [done|]. by apply handlers_elem.
Qed.

Lemma mouse_unmount_listeners w (es : list Step) :
  listeners (unmount (run es (mount w))).2
  = base.filter (λ l, l ≠ (mousemove, next_fn w)) (listeners w).
Proof.
  destruct (mouse_mounted_invariant w es) as (Hfn & _ & Hw).
  unfold unmount, cleanup.
  destruct (run es (mount w)) as [h w'] eqn:Hs. simpl in *.
  rewrite Hfn. simpl. rewrite Hw.
  apply (remove_after_add mousemove (next_fn w) (alloc_fn w).2).
Qed.

End MouseFacts.

(** ** [useKeyboard] *)

Section KeyboardFacts.
Import React Window UseKeyboard.
Implicit Types (w : Window) (eventHandler : FnRef) (eventHandlers : list FnRef).

Lemma added_snoc eventHandlers eventHandler (l : Listener) :
  l ∉ added (eventHandlers ++ [eventHandler])
  ↔ l ≠ (keydown, eventHandler) ∧ l ∉ added eventHandlers.
Proof.
  unfold added. rewrite fmap_app. simpl.
  rewrite not_elem_of_app, list_elem_of_singleton. tauto.
Qed.

(** While the hook is mounted, the handler of the last render is
    registered, and apart from it the listener list is the original one
    without the listeners of the earlier renders. *)
Lemma keyboard_invariant w eventHandler eventHandlers :
  let s := run eventHandlers (mount eventHandler w) in
  ∃ current,
    registered s.1 = Some current
    ∧ (keydown, current) ∈ listeners s.2
    ∧ base.filter (λ l, l ≠ (keydown, current)) (listeners s.2)
      = base.filter (λ l, l ∉ added (eventHandler :: eventHandlers))
          (listeners w).
Proof.
  induction eventHandlers as [|next eventHandlers IH] using rev_ind.
  - exists eventHandler. simpl. split; [done|].
    split; [apply addEventListener_elem|].
    pose proof (remove_after_add keydown eventHandler w) as Hrem.
    simpl in Hrem. rewrite Hrem.
    apply list_filter_iff. intros l. unfold added. simpl.
    by rewrite list_elem_of_singleton.
  - destruct IH as (current & Hreg & Hin & Hfilter).
    exists next. unfold run in *. rewrite foldl_snoc.
    destruct (foldl _ (mount eventHandler w) eventHandlers) as [h w'].
    simpl in *. unfold update, cleanup. simpl. rewrite Hreg. simpl.
    split; [done|]. split; [apply addEventListener_elem|].
    pose proof (remove_after_add keydown next
                  (removeEventListener keydown current w')) as Hrem.
    simpl in Hrem. rewrite Hrem, Hfilter.
    rewrite list_filter_filter. apply list_filter_iff. intros l.
    rewrite (added_snoc (eventHandler :: eventHandlers) next). tauto.
Qed.

Lemma keyboard_unmount_listeners w eventHandler eventHandlers :
  listeners (unmount (run eventHandlers (mount eventHandler w))).2
  = base.filter (λ l, l ∉ added (eventHandler :: eventHandlers)) (listeners w).
Proof.
  destruct (keyboard_invariant w eventHandler eventHandlers)
    as (current & Hreg & _ & Hfilter).
  unfold unmount, cleanup. rewrite Hreg. exact Hfilter.
Qed.

End KeyboardFacts.

(** ** State after events, and cleanup of the listeners *)

Section ListenerTheorems.
Import React Window.

(** C6. While [useWindowSize] is mounted, after a [resize] event its state
    is the new inner width and height of the window; while [useMouse] is
    mounted, after a [mousemove] event its state is the event's client
    position.  The two states are records of exactly two numbers. *)
Theorem useWindowSize_useMouse_state_after_event (w : Window) :
  (∀ (es : list UseWindowSize.Step) (newWidth newHeight : Z),
     let s := UseWindowSize.on_resize newWidth newHeight
                (UseWindowSize.run es (UseWindowSize.mount w)) in
     UseWindowSize.useWindowSize s
       = {| UseWindowSize.width := newWidth;
            UseWindowSize.height := newHeight |}
     ∧ UseWindowSize.useWindowSize s
       = {| UseWindowSize.width := innerWidth s.2;
            UseWindowSize.height := innerHeight s.2 |})
  ∧ (∀ (es : list UseMouse.Step) (event : UseMouse.MouseEvent),
       UseMouse.useMouse
         (UseMouse.on_mousemove event (UseMouse.run es (UseMouse.mount w)))
       = {| UseMouse.x := UseMouse.clientX event;
            UseMouse.y := UseMouse.clientY event |}).
Proof.
  split.
  - intros es newWidth newHeight s. split; [apply windowSize_on_resize_state|].
    pose proof (windowSize_mounted_invariant w
                  (es ++ [UseWindowSize.Resize newWidth newHeight])) as H.
    unfold UseWindowSize.run in *. rewrite foldl_snoc in H.
    by destruct H as (_ & _ & _ & H).
  - intros es event. apply on_mousemove_state.
Qed.

(** C7. On a window whose listeners are all allocated functions: after the
    cleanup of [useWindowSize] and of [useMouse] the listener list is the
    one from before the mount, so the one listener the effect added is
    gone and nothing else is; after the cleanup of [useKeyboard] the list
    is the original one without the [keydown] listeners of the handlers
    the hook was rendered with, none of which remains. *)
Theorem listeners_removed_by_cleanup (w : Window) :
  window_wf w →
  (∀ es : list UseWindowSize.Step,
     let s := UseWindowSize.run es (UseWindowSize.mount w) in
     (resize, next_fn w) ∈ listeners s.2
     ∧ listeners s.2 = listeners w ++ [(resize, next_fn w)]
     ∧ listeners (UseWindowSize.unmount s).2 = listeners w)
  ∧ (∀ es : list UseMouse.Step,
       let s := UseMouse.run es (UseMouse.mount w) in
       (mousemove, next_fn w) ∈ listeners s.2
       ∧ listeners s.2 = listeners w ++ [(mousemove, next_fn w)]
       ∧ listeners (UseMouse.unmount s).2 = listeners w)
  ∧ (∀ (eventHandler : FnRef) (eventHandlers : list FnRef),
       let s := UseKeyboard.run eventHandlers
                  (UseKeyboard.mount eventHandler w) in
       let added := UseKeyboard.added (eventHandler :: eventHandlers) in
       (∃ current, UseKeyboard.registered s.1 = Some current
                   ∧ (keydown, current) ∈ listeners s.2)
       ∧ listeners (UseKeyboard.unmount s).2
         = base.filter (λ l, l ∉ added) (listeners w)
       ∧ (∀ l, l ∈ added → l ∉ listeners (UseKeyboard.unmount s).2)
       ∧ (∀ l, l ∈ listeners w → l ∉ added →
            l ∈ listeners (UseKeyboard.unmount s).2)).
Proof.
  intros Hwf. split; [|split].
  - intros es s.
    destruct (windowSize_mounted_invariant w es) as (_ & Hin & Hls & _). fold s in Hin, Hls.
    split; [done|]. split.
    + rewrite Hls.
      apply (addEventListener_fresh resize (next_fn w) (alloc_fn w).2).
      exact (window_wf_fresh resize w Hwf).
    + unfold s. rewrite windowSize_unmount_listeners.
      apply filter_ne_id. by apply window_wf_fresh.
  - intros es s.
    destruct (mouse_mounted_invariant w es) as (_ & Hin & Hw). fold s in Hin, Hw.
    split; [done|]. split.
    + rewrite Hw.
      apply (addEventListener_fresh mousemove (next_fn w) (alloc_fn w).2).
      exact (window_wf_fresh mousemove w Hwf).
    + unfold s. rewrite mouse_unmount_listeners.
      apply filter_ne_id. by apply window_wf_fresh.
  - intros eventHandler eventHandlers s added.
    destruct (keyboard_invariant w eventHandler eventHandlers)
      as (current & Hreg & Hin & _).
    split; [by exists current|].
    pose proof (keyboard_unmount_listeners w eventHandler eventHandlers) as Hun.
    fold s added in Hun. rewrite Hun.
    split; [done|]. split.
    + intros l Hl. rewrite list_elem_of_filter. tauto.
    + intros l Hl Hnot. by apply list_elem_of_filter.
Qed.

Lemma listeners_removed_by_cleanup_witness :
  let w := {| innerWidth := 800; innerHeight := 600;
              listeners := [(keydown, 0%nat)]; next_fn := 7 |} in
  listeners (UseWindowSize.unmount (UseWindowSize.mount w)).2 = listeners w
  ∧ listeners (UseMouse.unmount (UseMouse.mount w)).2 = listeners w
  ∧ listeners (UseKeyboard.unmount (UseKeyboard.mount 3%nat w)).2
    = listeners w.
Proof.
  intros w.
  assert (Hwf : window_wf w).
  { split; [apply NoDup_singleton|].
    intros ty fn Hin. apply list_elem_of_singleton in Hin.
    injection Hin as -> ->. simpl. lia. }
  destruct (listeners_removed_by_cleanup w Hwf) as (Hsize & Hmouse & Hkey).
  destruct (Hsize []) as (_ & _ & H1).
  destruct (Hmouse []) as (_ & _ & H2).
  destruct (Hkey 3%nat []) as (_ & H3 & _).
  split; [exact H1|]. split; [exact H2|exact H3].
Defined.

End ListenerTheorems.

(** ** Timers *)

Section TimerFacts.
Import React Timers.
Implicit Types (t : Timers) (current : Callback).

Lemma advance_nothing_pending current dt t :
  pending t = [] →
  advance current dt t
  = {| runtime := runtime t; now := now t + Z.max 0 dt; next_timer := next_timer t;
       pending := []; fired := fired t |}.
Proof.
  intros Hp. unfold advance. rewrite Hp. simpl. by rewrite app_nil_r.
Qed.

(** One pending timer that is due by the end of the wait: it fires. *)
Lemma advance_fires current dt t (id : nat) (due : Z) :
  pending t = [(id, due)] → due ≤ now t + Z.max 0 dt →
  advance current dt t
  = {| runtime := runtime t; now := now t + Z.max 0 dt; next_timer := next_timer t;
       pending := []; fired := fired t ++ [(current, due)] |}.
Proof.
  intros Hp Hdue. unfold advance. rewrite Hp.
  rewrite !filter_cons, !filter_nil. simpl.
  repeat case_decide; done.
Qed.

(** One pending timer that is not due yet: it stays. *)
Lemma advance_waits current dt t (id : nat) (due : Z) :
  pending t = [(id, due)] → now t + Z.max 0 dt < due →
  advance current dt t
  = {| runtime := runtime t; now := now t + Z.max 0 dt; next_timer := next_timer t;
       pending := [(id, due)]; fired := fired t |}.
Proof.
  intros Hp Hdue. unfold advance. rewrite Hp.
  rewrite !filter_cons, !filter_nil. simpl.
  repeat case_decide; try lia. simpl. by rewrite app_nil_r.
Qed.

(** The delays every runtime takes as they are. *)
Lemma timer_delay_in_range (rt : Runtime) (delay : Z) :
  1 ≤ delay ≤ TIMEOUT_MAX → timer_delay rt delay = delay.
Proof.
  unfold TIMEOUT_MAX. intros Hd. destruct rt; simpl.
  - unfold to_long. rewrite Z.mod_small by lia. lia.
  - rewrite (proj2 (Z.leb_le 1 delay)) by lia.
    unfold TIMEOUT_MAX. by rewrite (proj2 (Z.leb_le delay _)) by lia.
Qed.

Lemma timer_delay_nonneg (rt : Runtime) (delay : Z) : 0 ≤ timer_delay rt delay.
Proof.
  destruct rt; simpl; [lia|].
  destruct (Z.leb_spec 1 delay); simpl; [|lia].
  destruct (delay <=? TIMEOUT_MAX); lia.
Qed.

Lemma advance_runtime current dt t : runtime (advance current dt t) = runtime t.
Proof. reflexivity. Qed.

End TimerFacts.

(** ** [useTimeout] *)

Section TimeoutFacts.
Import React Timers UseTimeout.
Implicit Types (h : Hook) (t : Timers) (s : Hook * Timers)
  (callback : Callback) (delay : Z).

Lemma timeout_set_spec (f : SetFn) s :
  set f s
  = (with_timeoutRef (Some (next_timer s.2)) s.1,
     {| runtime := runtime s.2; now := now s.2; next_timer := S (next_timer s.2);
        pending := pending s.2
                   ++ [(next_timer s.2,
                       now s.2 + timer_delay (runtime s.2) (set_delay f))];
        fired := fired s.2 |}).
Proof. by destruct s. Qed.

Lemma timeout_clear_spec s :
  single_timer s →
  clear s
  = (s.1, {| runtime := runtime s.2; now := now s.2; next_timer := next_timer s.2;
             pending := []; fired := fired s.2 |}).
Proof.
  destruct s as [h [rt n nt p f]]. unfold single_timer, clear, clearTimeout.
  simpl. intros [->|(id & due & Href & ->)].
  - by destruct (timeoutRef h).
  - rewrite Href. rewrite filter_cons, filter_nil. simpl.
    by rewrite decide_False by tauto.
Qed.

Lemma timeout_reset_spec (f : ResetFn) s :
  single_timer s →
  reset f s
  = (with_timeoutRef (Some (next_timer s.2)) s.1,
     {| runtime := runtime s.2; now := now s.2; next_timer := S (next_timer s.2);
        pending := [(next_timer s.2,
                     now s.2 + timer_delay (runtime s.2)
                               (set_delay (reset_set f)))];
        fired := fired s.2 |}).
Proof.
  intros Hs. unfold reset. rewrite (timeout_clear_spec s Hs). by rewrite timeout_set_spec.
Qed.

Lemma timeout_single_timer_nil h t : pending t = [] → single_timer (h, t).
Proof. intros Hp. by left. Qed.

Lemma timeout_single_timer_one h t (id : nat) (due : Z) :
  timeoutRef h = Some id → pending t = [(id, due)] → single_timer (h, t).
Proof. intros Href Hp. right. by exists id, due. Qed.

(** A render that passes the delay of the last one keeps every closure and
    does not touch the timers. *)
Lemma timeout_update_same_delay callback s :
  coherent s.1 →
  update callback (current_delay s.1) s = (rendered_with callback s.1, s.2).
Proof.
  destruct s as [[cref tref cdeps [f sdeps] [cid cldeps] tdeps [r rdeps] n] t].
  unfold coherent, current_delay. simpl.
  intros (-> & -> & -> & Hr & -> & Hlt & ->).
  unfold update, render, useCallback. simpl.
  rewrite !deps_changed_refl. simpl.
  unfold commit_cleanups, commit_effects, rendered_with. simpl.
  rewrite deps_changed_cons, deps_changed_nil.
  case_bool_decide as Hcb; simpl; [|done].
  by injection Hcb as ->.
Qed.

(** A render that passes another delay makes new [set] and [reset]
    closures and schedules both effects. *)
Lemma timeout_render_new_delay callback delay h :
  coherent h → delay ≠ current_delay h →
  let set_fn := {| set_id := next_closure h; set_delay := delay |} in
  render callback delay h
  = {| cells :=
         {| callbackRef := callbackRef h; timeoutRef := timeoutRef h;
            callback_deps := [VUser callback];
            set_memo := (set_fn, [VNum delay]);
            clear_memo := clear_memo h;
            timer_deps := [VNum delay; VClosure (next_closure h);
                           VClosure (clear_memo h).1];
            reset_memo :=
              ({| reset_id := S (next_closure h); reset_set := set_fn |},
               [VClosure (clear_memo h).1; VClosure (next_closure h)]);
            next_closure := S (S (next_closure h)) |};
       run_callback_effect := deps_changed [VUser callback] (callback_deps h);
       run_timer_effect := true |}.
Proof.
  destruct h as [cref tref cdeps [f sdeps] [cid cldeps] tdeps [r rdeps] n].
  unfold coherent, current_delay. simpl.
  intros (-> & -> & -> & Hr & -> & Hlt & ->) Hne.
  unfold render, useCallback. simpl.
  rewrite !deps_changed_cons, !deps_changed_nil.
  rewrite (bool_decide_eq_false_2 (VNum delay = VNum (set_delay f)))
    by congruence.
  simpl. rewrite !deps_changed_cons, !deps_changed_nil.
  rewrite (bool_decide_eq_true_2 (VClosure cid = VClosure cid)) by done.
  rewrite (bool_decide_eq_false_2 (VClosure n = VClosure (set_id f)))
    by (intros [= ->]; lia).
  simpl. by destruct (bool_decide (VNum delay = VNum (set_delay f))).
Qed.

Lemma timeout_update_new_delay callback delay s :
  coherent s.1 → single_timer s → delay ≠ current_delay s.1 →
  let s' := update callback delay s in
  coherent s'.1
  ∧ current_delay s'.1 = delay
  ∧ callbackRef s'.1 = callback
  ∧ timeoutRef s'.1 = Some (next_timer s.2)
  ∧ s'.2 = {| runtime := runtime s.2; now := now s.2; next_timer := S (next_timer s.2);
              pending := [(next_timer s.2,
                           now s.2 + timer_delay (runtime s.2) delay)];
              fired := fired s.2 |}.
Proof.
  destruct s as [h t]. simpl. intros Hco Hsingle Hne.
  unfold update. simpl. rewrite (timeout_render_new_delay callback delay h Hco Hne).
  unfold commit_cleanups. simpl.
  match goal with |- context [clear (?c, t)] =>
    assert (Hclear : single_timer (c, t)) by exact Hsingle;
    rewrite (timeout_clear_spec (c, t) Hclear)
  end.
  destruct h as [cref tref cdeps sm [cid cldeps] tdeps rm n].
  destruct Hco as (_ & Hcl & _ & _ & _ & _ & Hcd).
  simpl in *. subst cldeps cdeps.
  unfold commit_effects. simpl.
  rewrite deps_changed_cons, deps_changed_nil.
  unfold coherent, current_delay.
  case_bool_decide as Hcb; simpl; repeat split; try done; try lia;
    congruence.
Qed.

Lemma timeout_coherent_rendered_with callback h :
  coherent h → coherent (rendered_with callback h).
Proof. unfold coherent. simpl. tauto. Qed.

Lemma timeout_coherent_with_timeoutRef (id : option nat) h :
  coherent h → coherent (with_timeoutRef id h).
Proof. unfold coherent. simpl. tauto. Qed.

Lemma timeout_mount_spec callback delay (first : nat) t :
  pending t = [] →
  let s := mount callback delay first t in
  coherent s.1
  ∧ current_delay s.1 = delay
  ∧ callbackRef s.1 = callback
  ∧ timeoutRef s.1 = Some (next_timer t)
  ∧ s.2 = {| runtime := runtime t; now := now t; next_timer := S (next_timer t);
             pending := [(next_timer t,
                          now t + timer_delay (runtime t) delay)];
             fired := fired t |}.
Proof.
  intros Hp. unfold mount, commit_effects, set, setTimeout. simpl.
  rewrite Hp. unfold coherent, current_delay. simpl.
  repeat split; try done. lia.
Qed.

Lemma timeout_elapse_spec dt s :
  single_timer s →
  let s' := elapse dt s in
  s'.1 = s.1
  ∧ single_timer s'
  ∧ now s'.2 = now s.2 + Z.max 0 dt
  ∧ next_timer s'.2 = next_timer s.2
  ∧ (pending s.2 = [] → pending s'.2 = [] ∧ fired s'.2 = fired s.2)
  ∧ (∀ id due, pending s.2 = [(id, due)] → now s.2 + Z.max 0 dt < due →
       pending s'.2 = [(id, due)] ∧ fired s'.2 = fired s.2)
  ∧ (∀ id due, pending s.2 = [(id, due)] → due ≤ now s.2 + Z.max 0 dt →
       pending s'.2 = []
       ∧ fired s'.2 = fired s.2 ++ [(callbackRef s.1, due)]).
Proof.
  destruct s as [h t]. unfold elapse, single_timer. cbn [fst snd].
  intros [Hp|(id & due & Href & Hp)].
  - rewrite (advance_nothing_pending _ dt t Hp). simpl.
    split; [done|]. split; [by left|]. do 2 (split; [done|]).
    split; [done|]. split; intros id' due' Hp'; congruence.
  - destruct (decide (due ≤ now t + Z.max 0 dt)) as [Hdue|Hdue].
    + rewrite (advance_fires _ dt t id due Hp Hdue). simpl.
      split; [done|]. split; [by left|]. do 2 (split; [done|]).
      split; [congruence|].
      split; intros id' due' Hp' Hlt; rewrite Hp in Hp';
        injection Hp' as <- <-; [lia|done].
    + rewrite (advance_waits _ dt t id due Hp) by lia. simpl.
      split; [done|]. split; [right; by exists id, due|].
      do 2 (split; [done|]). split; [congruence|].
      split; intros id' due' Hp' Hlt; rewrite Hp in Hp';
        injection Hp' as <- <-; [done|lia].
Qed.

(** Every step keeps the cells coherent and at most one timer pending. *)
Lemma timeout_step_invariant s (e : Step) :
  coherent s.1 → single_timer s →
  coherent (step s e).1 ∧ single_timer (step s e).
Proof.
  intros Hco Hsingle. destruct e as [callback delay| | |dt]; cbn [step].
  - destruct (decide (delay = current_delay s.1)) as [->|Hne].
    + rewrite timeout_update_same_delay by done. simpl.
      split; [by apply timeout_coherent_rendered_with|exact Hsingle].
    + destruct (timeout_update_new_delay callback delay s Hco Hsingle Hne)
        as (Hco' & _ & _ & Href & Ht).
      split; [done|].
      destruct (update callback delay s) as [h' t']. simpl in *. subst t'.
      by eapply timeout_single_timer_one.
  - unfold useTimeout_reset. rewrite timeout_reset_spec by done. simpl.
    split; [by apply timeout_coherent_with_timeoutRef|].
    by eapply timeout_single_timer_one.
  - unfold useTimeout_clear. rewrite timeout_clear_spec by done. simpl.
    split; [done|by left].
  - destruct (timeout_elapse_spec dt s Hsingle) as (Hh & Hs' & _).
    split; [by rewrite Hh|done].
Qed.

Lemma timeout_run_invariant (es : list Step) s :
  coherent s.1 → single_timer s →
  coherent (run es s).1 ∧ single_timer (run es s).
Proof.
  revert s. induction es as [|e es IH]; intros s Hco Hsingle; [done|].
  simpl. destruct (timeout_step_invariant s e Hco Hsingle). by apply IH.
Qed.

(** With no timer pending, steps that set none leave none pending, and
    nothing fires. *)
Lemma timeout_run_keeps_cleared (es : list Step) s :
  coherent s.1 → pending s.2 = [] →
  Forall (keeps_timer (current_delay s.1)) es →
  pending (run es s).2 = [] ∧ fired (run es s).2 = fired s.2.
Proof.
  revert s. induction es as [|e es IH]; intros s Hco Hp Hes; [done|].
  apply Forall_cons in Hes as [He Hes]. simpl.
  assert (Hsingle : single_timer s) by (by left).
  assert (Hstep : coherent (step s e).1 ∧ pending (step s e).2 = []
                  ∧ fired (step s e).2 = fired s.2
                  ∧ current_delay (step s e).1 = current_delay s.1).
  { destruct e as [callback delay| | |dt]; cbn [step keeps_timer] in *.
    - subst delay. rewrite timeout_update_same_delay by done. simpl.
      split; [by apply timeout_coherent_rendered_with|done].
    - done.
    - unfold useTimeout_clear. rewrite timeout_clear_spec by done. done.
    - destruct (timeout_elapse_spec dt s Hsingle) as (Hh & _ & _ & _ & Hnil & _).
      destruct (Hnil Hp) as [Hp' Hf']. rewrite Hh. done. }
  destruct Hstep as (Hco' & Hp' & Hf' & Hd').
  destruct (IH (step s e)) as [IH1 IH2]; [done|done|by rewrite Hd'|].
  split; [done|]. by rewrite IH2.
Qed.

(** After [reset] exactly one timer is pending, due a full delay from now. *)
Lemma timeout_reset_restarts s :
  coherent s.1 → single_timer s →
  let s' := useTimeout_reset s in
  coherent s'.1 ∧ callbackRef s'.1 = callbackRef s.1
  ∧ timeoutRef s'.1 = Some (next_timer s.2)
  ∧ s'.2 = {| runtime := runtime s.2; now := now s.2; next_timer := S (next_timer s.2);
              pending := [(next_timer s.2,
                           now s.2 + timer_delay (runtime s.2)
                                       (current_delay s.1))];
              fired := fired s.2 |}.
Proof.
  intros Hco Hsingle. unfold useTimeout_reset.
  rewrite timeout_reset_spec by done. cbn [fst snd].
  split; [by apply timeout_coherent_with_timeoutRef|].
  do 2 (split; [done|]).
  destruct Hco as (_ & _ & _ & -> & _). done.
Qed.

(** No step changes the runtime. *)
Lemma timeout_clear_runtime s : runtime (clear s).2 = runtime s.2.
Proof. unfold clear. by destruct (timeoutRef s.1). Qed.

Lemma timeout_update_runtime callback delay s :
  runtime (update callback delay s).2 = runtime s.2.
Proof.
  unfold update, commit_effects, commit_cleanups.
  destruct (render callback delay s.1) as [c rc rt].
  cbn [cells run_callback_effect run_timer_effect].
  destruct rt, rc; cbn [fst snd]; rewrite ?timeout_set_spec; cbn [fst snd runtime];
    try done; apply (timeout_clear_runtime (c, s.2)).
Qed.

Lemma timeout_step_runtime s (e : Step) : runtime (step s e).2 = runtime s.2.
Proof.
  destruct e as [callback delay| | |dt]; cbn [step].
  - apply timeout_update_runtime.
  - unfold useTimeout_reset, reset. rewrite timeout_set_spec.
    apply timeout_clear_runtime.
  - apply timeout_clear_runtime.
  - reflexivity.
Qed.

Lemma timeout_run_runtime (es : list Step) s :
  runtime (run es s).2 = runtime s.2.
Proof.
  revert s. induction es as [|e es IH]; intros s; [done|].
  cbn [run foldl]. fold (run es (step s e)).
  by rewrite IH, timeout_step_runtime.
Qed.

(** C4, as the code has it.  [useTimeout] sets one timer at the mount; the
    callback is called once, when the wait the runtime makes of the delay
    has passed, and not before; that wait is the delay itself when the
    delay is between 1 and [2^31 - 1] milliseconds.  From any state the
    hook reaches: after [clear] no timer is pending and nothing fires as
    long as no [reset] and no change of the delay sets a timer again;
    [reset] is [clear] followed by [set] and leaves one timer, due a full
    wait from now; a render with another delay sets the timer anew; and
    the cleanup of the effect leaves no timer pending. *)
Theorem useTimeout_fires_once_reset_clear (rt : Runtime) callback delay
    (first : nat) (start : Z) (next : nat) :
  let s0 := mount callback delay first (fresh_timers rt start next) in
  let due := start + timer_delay rt delay in
  (1 ≤ delay ≤ TIMEOUT_MAX → due = start + delay)
  ∧ (pending s0.2 = [(next, due)] ∧ fired s0.2 = [])
  ∧ (∀ dt, Z.max 0 dt < timer_delay rt delay → fired (elapse dt s0).2 = [])
  ∧ (∀ dt dt', timer_delay rt delay ≤ Z.max 0 dt →
       fired (elapse dt s0).2 = [(callback, due)]
       ∧ fired (elapse dt' (elapse dt s0)).2 = [(callback, due)])
  ∧ (∀ es : list Step,
       let s := run es s0 in
       let wait := timer_delay rt (current_delay s.1) in
       (1 ≤ current_delay s.1 ≤ TIMEOUT_MAX → wait = current_delay s.1)
       ∧ (pending (useTimeout_clear s).2 = []
          ∧ ∀ es', Forall (keeps_timer (current_delay s.1)) es' →
              fired (run es' (useTimeout_clear s)).2 = fired s.2)
       ∧ (useTimeout_reset s = set (set_memo s.1).1 (clear s)
          ∧ pending (useTimeout_reset s).2 = [(next_timer s.2, now s.2 + wait)]
          ∧ fired (useTimeout_reset s).2 = fired s.2
          ∧ (∀ dt, Z.max 0 dt < wait →
               fired (elapse dt (useTimeout_reset s)).2 = fired s.2)
          ∧ (∀ dt, wait ≤ Z.max 0 dt →
               fired (elapse dt (useTimeout_reset s)).2
               = fired s.2 ++ [(callbackRef s.1, now s.2 + wait)]))
       ∧ (∀ callback' delay', delay' ≠ current_delay s.1 →
            pending (update callback' delay' s).2
            = [(next_timer s.2, now s.2 + timer_delay rt delay')])
       ∧ (pending (unmount s).2 = []
          ∧ ∀ dt, fired (elapse dt (unmount s)).2 = fired s.2)).
Proof.
  intros s0 due.
  destruct (timeout_mount_spec callback delay first (fresh_timers rt start next))
    as (Hco0 & Hd0 & Hcb0 & Href0 & Ht0); [done|].
  fold s0 in Hco0, Hd0, Hcb0, Href0, Ht0.
  assert (Hp0 : pending s0.2 = [(next, due)]) by (by rewrite Ht0).
  assert (Hf0 : fired s0.2 = []) by (by rewrite Ht0).
  assert (Hn0 : now s0.2 = start) by (by rewrite Ht0).
  assert (Hrt0 : runtime s0.2 = rt) by (by rewrite Ht0).
  assert (Hsingle0 : single_timer s0) by (right; by exists next, due).
  split; [intros Hd; unfold due; by rewrite timer_delay_in_range|].
  split; [done|]. split; [|split].
  - intros dt Hdt.
    destruct (timeout_elapse_spec dt s0 Hsingle0)
      as (_ & _ & _ & _ & _ & Hwait & _).
    destruct (Hwait next due Hp0) as [_ Hf]; [unfold due; lia|].
    by rewrite Hf.
  - intros dt dt' Hdt.
    destruct (timeout_elapse_spec dt s0 Hsingle0)
      as (Hh & Hsingle1 & _ & _ & _ & _ & Hfire).
    destruct (Hfire next due Hp0) as [Hp1 Hf1]; [unfold due; lia|].
    rewrite Hf0, Hcb0 in Hf1. simpl in Hf1. split; [done|].
    destruct (timeout_elapse_spec dt' (elapse dt s0) Hsingle1)
      as (_ & _ & _ & _ & Hnil & _).
    destruct (Hnil Hp1) as [_ Hf2]. by rewrite Hf2.
  - intros es s wait.
    destruct (timeout_run_invariant es s0 Hco0 Hsingle0) as [Hco Hsingle].
    fold s in Hco, Hsingle.
    assert (Hrt : runtime s.2 = rt)
      by (unfold s; by rewrite timeout_run_runtime).
    assert (Hclear : useTimeout_clear s
                     = (s.1, {| runtime := runtime s.2; now := now s.2;
                                next_timer := next_timer s.2;
                                pending := []; fired := fired s.2 |}))
      by (by apply timeout_clear_spec).
    split; [intros Hd; by apply timer_delay_in_range|].
    split; [|split; [|split]].
    + rewrite Hclear. split; [done|]. intros es' Hes'.
      match goal with |- context [run es' ?c] =>
        destruct (timeout_run_keeps_cleared es' c) as [_ Hf]; [done..|]
      end.
      by rewrite Hf.
    + destruct (timeout_reset_restarts s Hco Hsingle)
        as (Hco' & Hcb' & Href' & Ht').
      rewrite Hrt in Ht'. fold wait in Ht'.
      assert (Hsingle' : single_timer (useTimeout_reset s)).
      { right. exists (next_timer s.2), (now s.2 + wait). by rewrite Ht'. }
      split.
      { unfold useTimeout_reset, reset.
        by destruct Hco as (_ & _ & _ & -> & _). }
      assert (Hp' : pending (useTimeout_reset s).2
                    = [(next_timer s.2, now s.2 + wait)])
        by (by rewrite Ht').
      assert (Hf' : fired (useTimeout_reset s).2 = fired s.2)
        by (by rewrite Ht').
      assert (Hn' : now (useTimeout_reset s).2 = now s.2) by (by rewrite Ht').
      do 2 (split; [done|]).
      split; intros dt Hdt;
        destruct (timeout_elapse_spec dt (useTimeout_reset s) Hsingle')
          as (_ & _ & _ & _ & _ & Hwait & Hfire).
      * destruct (Hwait _ _ Hp') as [_ Hf]; [rewrite Hn'; lia|].
        by rewrite Hf.
      * destruct (Hfire _ _ Hp') as [_ Hf]; [rewrite Hn'; lia|].
        by rewrite Hf, Hf', Hcb'.
    + intros callback' delay' Hne.
      destruct (timeout_update_new_delay callback' delay' s Hco Hsingle Hne)
        as (_ & _ & _ & _ & ->). by rewrite Hrt.
    + unfold unmount. fold (useTimeout_clear s). rewrite Hclear.
      split; [done|]. intros dt.
      match goal with |- context [elapse dt ?c] =>
        destruct (timeout_elapse_spec dt c) as (_ & _ & _ & _ & Hnil & _);
          [by left|]
      end.
      by destruct (Hnil eq_refl) as [_ ->].
Qed.

(** C4, as stated, at the delay [2^31]: nothing should fire within the
    first 100 milliseconds, but the runtime does not wait that delay (a
    browser wraps it to a negative number and waits 0 milliseconds, Node
    sets it to 1 millisecond), and the callback has fired. *)
Lemma useTimeout_delay_out_of_range_fires_at_once :
  fired (elapse 100 (mount 7 2147483648 0 (fresh_timers Browser 0 1))).2
    = [(7, 0)]
  ∧ fired (elapse 100 (mount 7 2147483648 0 (fresh_timers Node 0 1))).2
    = [(7, 1)]
  ∧ ¬ waits_the_delay.
Proof.
  do 2 (split; [reflexivity|]).
  intros Hwaits.
  specialize (Hwaits Browser 7 2147483648 0%nat 0 1%nat 100).
  discriminate Hwaits. lia.
Qed.

(** A run: the first timer is replaced by [reset] at time 50, the callback
    is replaced by a render at time 149, and the new callback fires at
    time 150. *)
Example useTimeout_run_example :
  fired (run [Elapse 50; Reset; Elapse 99; Render 8 100; Elapse 1]
           (mount 7 100 0 (fresh_timers Browser 0 1))).2
  = [(8, 150)].
Proof. reflexivity. Qed.

End TimeoutFacts.

(** ** [useDelay] *)

Section DelayFacts.
Import React Timers UseDelay.
Implicit Types (h : Hook) (t : Timers) (s : Hook * Timers)
  (callback : Callback) (delay : Z) (dependencies : list Value).

(** [dependencies_of] recovers the dependencies from the remembered
    array [[...dependencies, reset]]. *)
Lemma dependencies_of_spec dependencies (th : UseTimeout.Hook) :
  dependencies_of {| timeout := th;
                     reset_deps := reset_effect_deps dependencies th |}
  = dependencies.
Proof.
  unfold dependencies_of, reset_effect_deps. simpl.
  rewrite length_app. simpl.
  replace (length dependencies + 1 - 1)%nat with (length dependencies) by lia.
  by rewrite take_app_length.
Qed.

(** The commit of [useTimeout] does not touch the [reset] cell. *)
Lemma delay_commit_keeps_reset callback delay (th : UseTimeout.Hook) t :
  UseTimeout.reset_memo (UseTimeout.update callback delay (th, t)).1
  = UseTimeout.reset_memo
      (UseTimeout.cells (UseTimeout.render callback delay th)).
Proof.
  unfold UseTimeout.update, UseTimeout.commit_effects,
    UseTimeout.commit_cleanups, UseTimeout.clear, UseTimeout.set.
  cbn [fst snd].
  destruct (UseTimeout.render callback delay th) as [c rc rt].
  cbn [UseTimeout.cells UseTimeout.run_callback_effect
       UseTimeout.run_timer_effect].
  destruct rt, rc; cbn [fst snd]; try done;
    destruct (UseTimeout.timeoutRef c); done.
Qed.

(** [update] is the [update] of [useTimeout] followed by the hook's own
    [reset] effect, when its dependency array changed. *)
Lemma delay_update_unfold callback delay dependencies s :
  update callback delay dependencies s
  = let s' := UseTimeout.update callback delay (timeout s.1, s.2) in
    let nextDeps := reset_effect_deps dependencies s'.1 in
    let s'' := if deps_changed nextDeps (reset_deps s.1)
               then UseTimeout.useTimeout_reset s' else s' in
    ({| timeout := s''.1; reset_deps := nextDeps |}, s''.2).
Proof.
  destruct s as [h t]. unfold update, own_effects. cbn [fst snd].
  rewrite deps_changed_nil. unfold reset_effect_deps.
  rewrite delay_commit_keeps_reset. reflexivity.
Qed.

Lemma timeout_update_spec callback delay (s : UseTimeout.Hook * Timers) :
  UseTimeout.coherent s.1 → UseTimeout.single_timer s →
  let s' := UseTimeout.update callback delay s in
  UseTimeout.coherent s'.1 ∧ UseTimeout.single_timer s'
  ∧ UseTimeout.current_delay s'.1 = delay
  ∧ UseTimeout.callbackRef s'.1 = callback
  ∧ now s'.2 = now s.2 ∧ fired s'.2 = fired s.2.
Proof.
  intros Hco Hsingle.
  destruct (timeout_step_invariant s (UseTimeout.Render callback delay)
              Hco Hsingle) as [Hco' Hsingle'].
  cbn [UseTimeout.step] in *. cbn zeta.
  do 2 (split; [done|]).
  destruct (decide (delay = UseTimeout.current_delay s.1)) as [->|Hne].
  - by rewrite timeout_update_same_delay.
  - destruct (timeout_update_new_delay callback delay s Hco Hsingle Hne)
      as (_ & Hd & Hcb & _ & Ht).
    rewrite Ht. done.
Qed.

Lemma delay_mount_spec callback delay dependencies (first : nat) t :
  pending t = [] →
  let s := mount callback delay dependencies first t in
  settled dependencies s
  ∧ UseTimeout.current_delay (timeout s.1) = delay
  ∧ UseTimeout.callbackRef (timeout s.1) = callback
  ∧ s.2 = {| runtime := runtime t; now := now t; next_timer := S (S (next_timer t));
             pending := []; fired := fired t |}.
Proof.
  intros Hp. unfold mount, own_effects. cbn zeta.
  destruct (timeout_mount_spec callback delay first t Hp)
    as (Hco & Hd & Hcb & Href & Ht).
  set (s1 := UseTimeout.mount callback delay first t) in *.
  assert (Hsingle : UseTimeout.single_timer s1).
  { right. eexists _, _. split; [exact Href|]. by rewrite Ht. }
  destruct (timeout_reset_restarts s1 Hco Hsingle)
    as (Hco2 & Hcb2 & Href2 & Ht2).
  set (s2 := UseTimeout.useTimeout_reset s1) in *.
  assert (Hsingle2 : UseTimeout.single_timer s2).
  { right. eexists _, _. split; [exact Href2|]. by rewrite Ht2. }
  unfold UseTimeout.useTimeout_clear.
  rewrite (timeout_clear_spec s2 Hsingle2). cbn [fst snd].
  assert (Hd2 : UseTimeout.current_delay s2.1 = delay).
  { unfold s2, UseTimeout.useTimeout_reset.
    by rewrite timeout_reset_spec. }
  cbn [timeout].
  split; [|split; [done|split; [congruence|]]].
  - split; [done|]. split; [by left|done].
  - rewrite Ht2, Ht. done.
Qed.

(** A render that passes the same delay and dependencies leaves the timers
    alone. *)
Lemma delay_update_quiet callback dependencies s :
  settled dependencies s →
  update callback (UseTimeout.current_delay (timeout s.1)) dependencies s
  = ({| timeout := UseTimeout.rendered_with callback (timeout s.1);
        reset_deps := reset_deps s.1 |}, s.2).
Proof.
  intros (Hco & Hsingle & Hdeps). rewrite delay_update_unfold.
  pose proof (timeout_update_same_delay callback (timeout s.1, s.2) Hco)
    as Hsame.
  cbn [fst snd] in Hsame. rewrite Hsame. cbn [fst snd].
  replace (reset_effect_deps dependencies
             (UseTimeout.rendered_with callback (timeout s.1)))
    with (reset_deps s.1) by (by rewrite Hdeps).
  by rewrite deps_changed_refl.
Qed.

(** Every render keeps the invariant, for the dependencies it passes. *)
Lemma delay_update_settled callback delay dependencies dependencies' s :
  settled dependencies s →
  let s' := update callback delay dependencies' s in
  settled dependencies' s'
  ∧ UseTimeout.current_delay (timeout s'.1) = delay
  ∧ UseTimeout.callbackRef (timeout s'.1) = callback
  ∧ now s'.2 = now s.2 ∧ fired s'.2 = fired s.2.
Proof.
  intros (Hco & Hsingle & Hdeps). cbn zeta. rewrite delay_update_unfold.
  destruct (timeout_update_spec callback delay (timeout s.1, s.2) Hco Hsingle)
    as (Hco1 & Hsingle1 & Hd1 & Hcb1 & Hn1 & Hf1).
  set (s1 := UseTimeout.update callback delay (timeout s.1, s.2)) in *.
  cbn zeta. cbn [fst snd] in *.
  destruct (deps_changed _ _); cbn [fst snd timeout reset_deps].
  - destruct (timeout_reset_restarts s1 Hco1 Hsingle1)
      as (Hco2 & Hcb2 & Href2 & Ht2).
    assert (Hmemo : UseTimeout.reset_memo (UseTimeout.useTimeout_reset s1).1
                    = UseTimeout.reset_memo s1.1).
    { unfold UseTimeout.useTimeout_reset.
      by rewrite timeout_reset_spec. }
    assert (Hd2 : UseTimeout.current_delay (UseTimeout.useTimeout_reset s1).1
                  = UseTimeout.current_delay s1.1).
    { unfold UseTimeout.useTimeout_reset.
      by rewrite timeout_reset_spec. }
    split; [|split; [congruence|split; [congruence|by rewrite Ht2]]].
    split; [done|]. split.
    + right. eexists _, _. split; [exact Href2|]. by rewrite Ht2.
    + unfold reset_effect_deps. cbn [fst snd timeout reset_deps].
      by rewrite Hmemo.
  - split; [|done]. split; [done|]. split; [by destruct s1|done].
Qed.





Lemma delay_quiet_render callback dependencies s :
  settled dependencies s →
  let s' := update callback (UseTimeout.current_delay (timeout s.1))
              dependencies s in
  settled dependencies s' ∧ s'.2 = s.2
  ∧ UseTimeout.current_delay (timeout s'.1)
    = UseTimeout.current_delay (timeout s.1).
Proof.
  intros Hs. cbn zeta. rewrite delay_update_quiet by done.
  destruct Hs as (Hco & Hsingle & Hdeps).
  split; [|done]. split; [by apply timeout_coherent_rendered_with|].
  split; [exact Hsingle|exact Hdeps].
Qed.

Lemma delay_elapse_spec dt dependencies s :
  settled dependencies s →
  let s' := elapse dt s in
  settled dependencies s'
  ∧ timeout s'.1 = timeout s.1
  ∧ now s'.2 = now s.2 + Z.max 0 dt
  ∧ (pending s.2 = [] → pending s'.2 = [] ∧ fired s'.2 = fired s.2)
  ∧ (∀ id due, pending s.2 = [(id, due)] → now s.2 + Z.max 0 dt < due →
       pending s'.2 = [(id, due)] ∧ fired s'.2 = fired s.2)
  ∧ (∀ id due, pending s.2 = [(id, due)] → due ≤ now s.2 + Z.max 0 dt →
       pending s'.2 = []
       ∧ fired s'.2
         = fired s.2 ++ [(UseTimeout.callbackRef (timeout s.1), due)]).
Proof.
  intros (Hco & Hsingle & Hdeps). cbn zeta. unfold elapse, lift.
  destruct (timeout_elapse_spec dt (timeout s.1, s.2) Hsingle)
    as (Hh & Hsingle' & Hnow & _ & Hnil & Hwait & Hfire).
  set (s1 := UseTimeout.elapse dt (timeout s.1, s.2)) in *.
  cbn [fst snd timeout reset_deps] in *.
  split; [|by rewrite Hh].
  split; [by rewrite Hh|]. split; [by destruct s1|by rewrite Hh].
Qed.



Lemma settled_dependencies_of dependencies s :
  settled dependencies s → dependencies_of s.1 = dependencies.
Proof.
  intros (_ & _ & Hdeps). destruct s as [[th rd] t]. simpl in *. subst rd.
  apply dependencies_of_spec.
Qed.

Lemma delay_run_settled (es : list Step) dependencies s :
  settled dependencies s →
  settled (dependencies_of (run es s).1) (run es s).
Proof.
  revert dependencies s.
  induction es as [|e es IH]; intros dependencies s Hs.
  - cbn [run foldl]. by rewrite (settled_dependencies_of dependencies).
  - cbn [run foldl]. fold (run es (step s e)).
    destruct e as [callback delay' dependencies'|dt]; cbn [step].
    + destruct (delay_update_settled callback delay' dependencies
                  dependencies' s Hs) as (Hs' & _).
      by apply (IH dependencies').
    + destruct (delay_elapse_spec dt dependencies s Hs) as (Hs' & _).
      by apply (IH dependencies).
Qed.


(** No step changes the runtime. *)
Lemma delay_step_runtime s (e : Step) : runtime (step s e).2 = runtime s.2.
Proof.
  destruct e as [callback delay' dependencies'|dt]; cbn [step].
  - rewrite delay_update_unfold. cbn zeta.
    pose proof (timeout_update_runtime callback delay' (timeout s.1, s.2))
      as Hrt.
    destruct (deps_changed _ _); cbn [snd]; [|done].
    unfold UseTimeout.useTimeout_reset, UseTimeout.reset.
    rewrite timeout_set_spec. cbn [snd runtime].
    by rewrite timeout_clear_runtime.
  - reflexivity.
Qed.

Lemma delay_run_runtime (es : list Step) s :
  runtime (run es s).2 = runtime s.2.
Proof.
  revert s. induction es as [|e es IH]; intros s; [done|].
  cbn [run foldl]. fold (run es (step s e)).
  by rewrite IH, delay_step_runtime.
Qed.


(** A run: nothing fires after the mount; the dependencies change at time
    50 and the callback fires at time 150, once.  A dependency array that
    grows restarts the timer as well. *)
Example useDelay_run_example :
  fired (run [Elapse 50]
           (mount 7 100 [VUser 1] 0 (fresh_timers Browser 0 1))).2 = []
  ∧ fired (run [Elapse 50; Render 7 100 [VUser 2]; Elapse 99]
             (mount 7 100 [VUser 1] 0 (fresh_timers Browser 0 1))).2 = []
  ∧ fired (run [Elapse 50; Render 7 100 [VUser 2]; Elapse 100; Elapse 1000]
             (mount 7 100 [VUser 1] 0 (fresh_timers Browser 0 1))).2
    = [(7, 150)]
  ∧ fired (run [Elapse 50; Render 7 100 [VUser 1; VUser 2]; Elapse 100]
             (mount 7 100 [VUser 1] 0 (fresh_timers Node 0 1))).2
    = [(7, 150)].
Proof. repeat split; reflexivity. Qed.

End DelayFacts.


(** * Further properties of the hooks *)

(** ** [useArray]: the last index, indices out of range, [push] *)

Section ArrayEdges.
Import React UseArray.
Context {A : Type}.
Implicit Types (prev : list A) (index : Z) (value : A).

Lemma clamp_index_above (len rel : Z) :
  0 ≤ len ≤ rel → clamp_index len rel = len.
Proof. intros H. unfold clamp_index. destruct (Z.ltb_spec rel 0); lia. Qed.

Lemma clamp_index_negative (len rel : Z) :
  - len ≤ rel < 0 → clamp_index len rel = len + rel.
Proof. intros H. unfold clamp_index. destruct (Z.ltb_spec rel 0); lia. Qed.

(** A negative bound that stays inside the array counts from its end. *)
Lemma slice_negative_start (a b : Z) prev :
  - array_length prev ≤ a < 0 →
  slice a b prev = slice (array_length prev + a) b prev.
Proof.
  unfold array_length. intros Ha. unfold slice.
  rewrite (clamp_index_negative _ a) by done.
  by rewrite (clamp_index_in_range _ (Z.of_nat (length prev) + a)) by lia.
Qed.

Lemma slice_negative_stop (a b : Z) prev :
  - array_length prev ≤ b < 0 →
  slice a b prev = slice a (array_length prev + b) prev.
Proof.
  unfold array_length. intros Hb. unfold slice.
  rewrite (clamp_index_negative _ b) by done.
  by rewrite (clamp_index_in_range _ (Z.of_nat (length prev) + b)) by lia.
Qed.

(** The array without its last element, as [slice] gives it. *)
Lemma slice_all_but_last prev :
  slice 0 (array_length prev - 1) prev = take (length prev - 1) prev.
Proof.
  unfold array_length. destruct prev as [|x prev]; [done|].
  rewrite slice_in_range by (unfold array_length; simpl length; lia).
  simpl drop. f_equal. simpl length. lia.
Qed.

(** X1. At the last index of a non-empty array [remove] and [update] do
    what their names say: [remove] returns the array without its last
    element, [update] the array with its last element replaced. *)
Theorem useArray_last_index prev value :
  prev ≠ [] →
  let last := (length prev - 1)%nat in
  dispatch (remove (array_length prev - 1)) prev = delete last prev
  ∧ dispatch (update (array_length prev - 1) value) prev
    = <[last := value]> prev.
Proof.
  intros Hne last.
  assert (Hlen : (0 < length prev)%nat) by (destruct prev; [done|simpl; lia]).
  assert (Hi : 0 ≤ array_length prev - 1 < array_length prev)
    by (unfold array_length; lia).
  assert (Hnat : Z.to_nat (array_length prev - 1) = last)
    by (unfold array_length, last; lia).
  assert (Hrest : drop (S last) (take (length prev - 1) prev) = []).
  { apply drop_ge. rewrite length_take. unfold last. lia. }
  split.
  - rewrite (remove_slices _ prev Hi), Hnat, Hrest.
    rewrite delete_take_drop, (drop_ge prev (S last)) by (unfold last; lia).
    done.
  - rewrite (update_slices _ value prev Hi), Hnat, Hrest.
    rewrite insert_take_drop by (unfold last; lia).
    by rewrite (drop_ge prev (S last)) by (unfold last; lia).
Qed.

(** X2. With an index at or past the end of the array, [remove] returns the
    array as it is and [update] appends the value. *)
Theorem useArray_index_past_end prev index value :
  array_length prev ≤ index →
  dispatch (remove index) prev = prev
  ∧ dispatch (update index value) prev = prev ++ [value].
Proof.
  unfold array_length. intros Hi.
  assert (Hpre : slice 0 index prev = prev).
  { unfold slice. rewrite (clamp_index_in_range _ 0) by lia.
    rewrite (clamp_index_above _ index) by lia.
    simpl drop. apply take_ge. lia. }
  assert (Hsuf : slice (index + 1) (array_length prev - 1) prev = []).
  { unfold slice, array_length.
    rewrite (clamp_index_above _ (index + 1)) by lia.
    replace (Z.to_nat (Z.max _ 0)) with 0%nat; [done|].
    unfold clamp_index. destruct (Z.ltb_spec (Z.of_nat (length prev) - 1) 0); lia. }
  simpl. rewrite Hpre, Hsuf. by rewrite app_nil_r.
Qed.

(** X3. With index [-1], [remove] returns the array without its last
    element twice over, and [update] puts the value between the two
    copies. *)
Theorem useArray_index_minus_one prev value :
  let init := take (length prev - 1) prev in
  dispatch (remove (-1)) prev = init ++ init
  ∧ dispatch (update (-1) value) prev = init ++ [value] ++ init.
Proof.
  intros init.
  assert (Hpre : slice 0 (-1) prev = init).
  { destruct prev as [|x prev]; [done|].
    rewrite slice_negative_stop by (unfold array_length; simpl length; lia).
    replace (array_length (x :: prev) + -1) with (array_length (x :: prev) - 1)
      by lia.
    apply slice_all_but_last. }
  assert (Hsuf : slice (-1 + 1) (array_length prev - 1) prev = init)
    by apply slice_all_but_last.
  simpl. by rewrite Hpre, Hsuf.
Qed.

(** X4. A negative index from [-2] down to minus the length counts from
    the end of the array: [remove] and [update] act as at the index
    [length + index]. *)
Theorem useArray_negative_index prev index value :
  - array_length prev ≤ index ≤ -2 →
  dispatch (remove index) prev
    = dispatch (remove (array_length prev + index)) prev
  ∧ dispatch (update index value) prev
    = dispatch (update (array_length prev + index) value) prev.
Proof.
  intros Hi.
  assert (Hpre : slice 0 index prev = slice 0 (array_length prev + index) prev)
    by (apply slice_negative_stop; lia).
  assert (Hsuf : slice (index + 1) (array_length prev - 1) prev
                 = slice (array_length prev + index + 1)
                     (array_length prev - 1) prev).
  { rewrite slice_negative_start by lia. f_equal. lia. }
  simpl. by rewrite Hpre, Hsuf.
Qed.

(** X5. [push] followed by [remove]: removing at the index of the pushed
    value gives the array back, whatever the array, the empty one
    included; removing at an index of the array removes that element and
    loses the pushed value as well. *)
Theorem useArray_push_then_remove prev index value :
  dispatch (remove (array_length prev)) (dispatch (push value) prev) = prev
  ∧ (0 ≤ index < array_length prev →
     dispatch (remove index) (dispatch (push value) prev)
     = delete (Z.to_nat index) prev).
Proof.
  unfold array_length.
  set (arr := dispatch (push value) prev).
  assert (Harr : arr = prev ++ [value]) by done.
  assert (Hlen : length arr = S (length prev))
    by (rewrite Harr, length_app; simpl; lia).
  assert (Hinit : take (length arr - 1) arr = prev).
  { rewrite Hlen, Harr.
    replace (S (length prev) - 1)%nat with (length prev) by lia.
    apply take_app_length. }
  split.
  - rewrite (remove_slices (Z.of_nat (length prev)) arr)
      by (unfold array_length; lia).
    rewrite Hinit, Nat2Z.id, (drop_ge prev) by lia.
    rewrite Harr, take_app_length. apply app_nil_r.
  - intros Hi.
    rewrite (remove_slices index arr) by (unfold array_length; lia).
    rewrite Hinit, Harr, take_app_le by lia.
    by rewrite delete_take_drop.
Qed.

End ArrayEdges.

Lemma useArray_last_index_witness :
  React.dispatch (UseArray.remove 2) [10; 20; 30] = [10; 20]
  ∧ React.dispatch (UseArray.update 2 99) [10; 20; 30] = [10; 20; 99].
Proof.
  assert (Hne : [10; 20; 30] ≠ []) by discriminate.
  exact (useArray_last_index [10; 20; 30] 99 Hne).
Defined.

Lemma useArray_index_past_end_witness :
  React.dispatch (UseArray.remove 5) [10; 20; 30] = [10; 20; 30]
  ∧ React.dispatch (UseArray.update 5 99) [10; 20; 30] = [10; 20; 30; 99].
Proof.
  assert (Hi : UseArray.array_length [10; 20; 30] ≤ 5)
    by (unfold UseArray.array_length; simpl; lia).
  exact (useArray_index_past_end [10; 20; 30] 5 99 Hi).
Defined.

Lemma useArray_negative_index_witness :
  React.dispatch (UseArray.remove (-3)) [10; 20; 30; 40] = [10; 30]
  ∧ React.dispatch (UseArray.update (-3) 99) [10; 20; 30; 40] = [10; 99; 30].
Proof.
  assert (Hi : - UseArray.array_length [10; 20; 30; 40] ≤ -3 ≤ -2)
    by (unfold UseArray.array_length; simpl; lia).
  exact (useArray_negative_index [10; 20; 30; 40] (-3) 99 Hi).
Defined.

Lemma useArray_push_then_remove_witness :
  React.dispatch (UseArray.remove 0) (React.dispatch (UseArray.push 40) [])
    = []
  ∧ React.dispatch (UseArray.remove 3)
      (React.dispatch (UseArray.push 40) [10; 20; 30]) = [10; 20; 30]
  ∧ React.dispatch (UseArray.remove 1)
      (React.dispatch (UseArray.push 40) [10; 20; 30]) = [10; 30].
Proof.
  assert (Hi : 0 ≤ 1 < UseArray.array_length [10; 20; 30])
    by (unfold UseArray.array_length; simpl; lia).
  destruct (useArray_push_then_remove [10; 20; 30] 1 40) as [Hback Hlose].
  split; [exact (proj1 (useArray_push_then_remove [] 0 40))|].
  split; [exact Hback|exact (Hlose Hi)].
Defined.

(** ** [useLocalStorage]: what is written, and what a later mount reads *)

Section LocalStorageEdges.
Import React UseLocalStorage.
Implicit Types (key initial : string) (storage : gmap string string)
  (s : Hook * gmap string string).

Lemma commit_storage key s :
  (commit key s).2 = s.2 ∨ (commit key s).2 = setItem key (data s.1) s.2.
Proof.
  destruct s as [h storage]. unfold commit. simpl.
  destruct (effect_deps h) as [prevDeps|]; [|by right].
  destruct (deps_changed _ prevDeps); [by right|by left].
Qed.

(** X6. What [setData] stores is what a later mount with the same key
    starts from, unless it is the empty string: then the later mount
    starts from its own initial value. *)
Theorem useLocalStorage_set_then_mount key key0 s (a : SetStateAction string) :
  synced key0 s →
  let value := dispatch a (data s.1) in
  let storage := (setData a key s).2 in
  getItem key storage = Some value
  ∧ (value ≠ ""%string →
     ∀ initial, useLocalStorage (mount key initial storage) = value)
  ∧ (value = ""%string →
     ∀ initial, useLocalStorage (mount key initial storage) = initial).
Proof.
  intros Hs value storage.
  destruct (setData_synced key0 key a s Hs) as [_ Hget].
  pose proof (setData_data a key s) as Hdata.
  unfold useLocalStorage in Hdata. rewrite Hdata in Hget.
  fold value in Hget. fold storage in Hget.
  split; [done|]. split.
  - intros Hne initial. by apply initial_data_stored.
  - intros Heq initial. apply initial_data_empty. by rewrite Hget, Heq.
Qed.

(** X7. A re-render with the key and the state of the last commit writes
    nothing.  A re-render with another key stores the state under the new
    key and leaves the entry under the old key as it is. *)
Theorem useLocalStorage_rerender key key' s :
  synced key s →
  update key s = s
  ∧ (key' ≠ key →
     getItem key' (update key' s).2 = Some (data s.1)
     ∧ getItem key (update key' s).2 = Some (data s.1)
     ∧ useLocalStorage (update key' s) = data s.1).
Proof.
  intros Hs. pose proof (update_synced key key' s Hs) as [_ Hget'].
  destruct s as [[d deps] storage]. destruct Hs as [Hdeps Hget].
  simpl in *. subst deps. split.
  - unfold update, commit. simpl. by rewrite deps_changed_refl.
  - intros Hne. split; [exact Hget'|]. split; [|done].
    unfold update, commit, getItem, setItem in *. simpl.
    destruct (deps_changed _ _); [|done].
    by rewrite lookup_insert_ne.
Qed.

(** X8. The hook writes under the key it is given and nowhere else: the
    mount, a re-render and [setData] leave every other entry as it is. *)
Theorem useLocalStorage_other_keys key other initial storage s
    (a : SetStateAction string) :
  other ≠ key →
  getItem other (mount key initial storage).2 = getItem other storage
  ∧ getItem other (update key s).2 = getItem other s.2
  ∧ getItem other (setData a key s).2 = getItem other s.2.
Proof.
  intros Hne.
  assert (Hcommit : ∀ s', getItem other (commit key s').2 = getItem other s'.2).
  { intros s'. destruct (commit_storage key s') as [->| ->]; [done|].
    unfold getItem, setItem. by apply lookup_insert_ne. }
  split; [apply (Hcommit (_, storage))|].
  split; [apply Hcommit|].
  unfold setData, update. by rewrite Hcommit.
Qed.

Lemma useLocalStorage_set_then_mount_witness :
  useLocalStorage
    (mount "lang" "en"
       (setData (NextValue "fr") "lang" (mount "lang" "en" ∅)).2)
  = "fr"%string.
Proof.
  pose proof (useLocalStorage_set_then_mount "lang" "lang"
                (mount "lang" "en" ∅) (NextValue "fr")
                (mount_synced "lang" "en" ∅)) as (_ & Hread & _).
  apply Hread. discriminate.
Defined.

Lemma useLocalStorage_rerender_witness :
  update "lang" (mount "lang" "en" ∅) = mount "lang" "en" ∅
  ∧ getItem "lang" (update "locale" (mount "lang" "en" ∅)).2
    = Some "en"%string.
Proof.
  pose proof (useLocalStorage_rerender "lang" "locale" (mount "lang" "en" ∅)
                (mount_synced "lang" "en" ∅)) as [Hsame Hother].
  split; [exact Hsame|].
  destruct Hother as (_ & Hold & _); [discriminate|exact Hold].
Defined.

Lemma useLocalStorage_other_keys_witness :
  getItem "theme" (mount "lang" "en" {["theme" := "dark"]}).2
  = Some "dark"%string.
Proof.
  assert (Hne : "theme"%string ≠ "lang"%string) by discriminate.
  destruct (useLocalStorage_other_keys "lang" "theme" "en"
              {["theme" := "dark"]} (mount "lang" "en" ∅) (NextValue "fr") Hne)
    as (Hmount & _).
  rewrite Hmount. reflexivity.
Defined.

End LocalStorageEdges.

(** ** [useKeyboard]: which handlers are attached *)

Section KeyboardEdges.
Import React Window UseKeyboard.
Implicit Types (w : Window) (eventHandler : FnRef) (eventHandlers : list FnRef).

Lemma keyboard_registered_last w eventHandler eventHandlers :
  registered (run eventHandlers (mount eventHandler w)).1
  = Some (default eventHandler (last eventHandlers)).
Proof.
  induction eventHandlers as [|next eventHandlers IH] using rev_ind; [done|].
  unfold run. rewrite foldl_snoc, last_snoc. reflexivity.
Qed.

Lemma added_elem eventHandlers (l : Listener) :
  l ∈ added eventHandlers ↔ l.1 = keydown ∧ l.2 ∈ eventHandlers.
Proof.
  unfold added. rewrite list_elem_of_fmap. destruct l as [ty fn]. simpl. split.
  - intros (fn' & [= -> ->] & Hin). done.
  - intros [-> Hin]. by exists fn.
Qed.

(** X9. After any sequence of renders the handler of the last render, and
    no handler of an earlier render, is called at a [keydown] event; the
    functions called at other events are the ones from before the mount. *)
Theorem useKeyboard_only_last_handler w eventHandler eventHandlers :
  let s := run eventHandlers (mount eventHandler w) in
  let current := default eventHandler (last eventHandlers) in
  current ∈ handlers keydown s.2
  ∧ (∀ fn, fn ∈ eventHandler :: eventHandlers → fn ≠ current →
       fn ∉ handlers keydown s.2)
  ∧ (∀ ty, ty ≠ keydown → handlers ty s.2 = handlers ty w).
Proof.
  intros s current.
  destruct (keyboard_invariant w eventHandler eventHandlers)
    as (current' & Hreg & Hin & Hfilter).
  fold s in Hreg, Hin, Hfilter.
  pose proof (keyboard_registered_last w eventHandler eventHandlers) as Hlast.
  fold s current in Hlast. rewrite Hlast in Hreg. injection Hreg as <-.
  split; [by apply handlers_elem|]. split.
  - intros fn Hfn Hne Hcalled. apply handlers_elem in Hcalled.
    assert (Hkept : (keydown, fn) ∈ base.filter
                      (λ l, l ∉ added (eventHandler :: eventHandlers))
                      (listeners w)).
    { rewrite <- Hfilter. apply list_elem_of_filter. split; [congruence|done]. }
    apply list_elem_of_filter in Hkept as [Hnot _].
    apply Hnot, added_elem. done.
  - intros ty Hty. unfold handlers. f_equal.
    transitivity (base.filter (λ l : Listener, l.1 = ty)
                    (base.filter (λ l, l ≠ (keydown, current))
                       (listeners s.2))).
    + symmetry. apply list_filter_filter_l.
      intros [ty' fn] Heq [= -> ->]. done.
    + rewrite Hfilter. apply list_filter_filter_l.
      intros l Heq Hadded. apply added_elem in Hadded as [Hkey _]. congruence.
Qed.

(** X10. When the handler is already registered for [keydown] before the
    mount, the mount adds nothing, and the cleanup removes the listener
    that was there before. *)
Theorem useKeyboard_removes_earlier_registration w eventHandler :
  (keydown, eventHandler) ∈ listeners w →
  listeners (mount eventHandler w).2 = listeners w
  ∧ (keydown, eventHandler) ∉ listeners (unmount (mount eventHandler w)).2.
Proof.
  intros Hin. split.
  - unfold mount, effect, addEventListener. simpl.
    by rewrite bool_decide_eq_true_2.
  - pose proof (keyboard_unmount_listeners w eventHandler []) as Hun.
    change (run [] (mount eventHandler w)) with (mount eventHandler w) in Hun.
    rewrite Hun, list_elem_of_filter.
    intros [Hnot _]. apply Hnot, added_elem. split; [done|by left].
Qed.

Lemma useKeyboard_removes_earlier_registration_witness :
  let w := {| innerWidth := 800; innerHeight := 600;
              listeners := [(resize, 1%nat); (keydown, 4%nat)];
              next_fn := 7 |} in
  listeners (mount 4%nat w).2 = [(resize, 1%nat); (keydown, 4%nat)]
  ∧ (keydown, 4%nat) ∉ listeners (unmount (mount 4%nat w)).2.
Proof.
  intros w.
  assert (Hin : (keydown, 4%nat) ∈ listeners w) by (right; left).
  exact (useKeyboard_removes_earlier_registration w 4%nat Hin).
Defined.

End KeyboardEdges.

(** ** [useWindowSize] and [useMouse]: the state at the mount, two instances *)

Section WindowEdges.
Import React Window.

Lemma windowSize_renders_only (n : nat) (s : UseWindowSize.Hook * Window) :
  UseWindowSize.run (replicate n UseWindowSize.Render) s = s.
Proof. induction n as [|n IH]; [done|]. exact IH. Qed.

Lemma mouse_renders_only (n : nat) (s : UseMouse.Hook * Window) :
  UseMouse.run (replicate n UseMouse.Render) s = s.
Proof. induction n as [|n IH]; [done|]. exact IH. Qed.

(** X11. After the mount and any number of re-renders, with no event yet,
    [useWindowSize] returns the size the window has, not the zeros its
    state is created with, whereas [useMouse] returns the zeros. *)
Theorem useWindowSize_useMouse_state_at_mount (w : Window) (n : nat) :
  UseWindowSize.useWindowSize
    (UseWindowSize.run (replicate n UseWindowSize.Render)
       (UseWindowSize.mount w))
  = {| UseWindowSize.width := innerWidth w;
       UseWindowSize.height := innerHeight w |}
  ∧ UseMouse.useMouse
      (UseMouse.run (replicate n UseMouse.Render) (UseMouse.mount w))
    = {| UseMouse.x := 0; UseMouse.y := 0 |}.
Proof.
  rewrite windowSize_renders_only, mouse_renders_only. split; [|done].
  destruct (windowSize_mounted_invariant w []) as (_ & _ & _ & Hsize).
  change (UseWindowSize.run [] (UseWindowSize.mount w))
    with (UseWindowSize.mount w) in Hsize.
  rewrite Hsize.
  destruct (addEventListener_size resize (next_fn w) (alloc_fn w).2)
    as [Hw Hh].
  change (UseWindowSize.mount w).2
    with (addEventListener resize (next_fn w) (alloc_fn w).2).
  by rewrite Hw, Hh.
Qed.

(** The window after the mount of [useWindowSize]. *)
Lemma windowSize_mount_window (w : Window) :
  window_wf w →
  let s := UseWindowSize.mount w in
  UseWindowSize.handleWindowResize s.1 = Some (next_fn w)
  ∧ listeners s.2 = listeners w ++ [(resize, next_fn w)]
  ∧ next_fn s.2 = S (next_fn w)
  ∧ window_wf s.2.
Proof.
  intros Hwf s.
  assert (Hls : listeners s.2 = listeners w ++ [(resize, next_fn w)]).
  { apply (addEventListener_fresh resize (next_fn w) (alloc_fn w).2).
    exact (window_wf_fresh resize w Hwf). }
  assert (Hnext : next_fn s.2 = S (next_fn w)).
  { unfold s, UseWindowSize.mount, UseWindowSize.effect, addEventListener.
    simpl. by case_bool_decide. }
  split; [done|]. split; [done|]. split; [done|].
  destruct Hwf as [Hnodup Hlt]. split.
  - rewrite Hls. apply NoDup_app. split; [done|]. split.
    + intros l Hl Hl'. apply list_elem_of_singleton in Hl'. subst l.
      apply Hlt in Hl. lia.
    + apply NoDup_singleton.
  - intros ty fn. rewrite Hls, Hnext, elem_of_app, list_elem_of_singleton.
    intros [Hin|[= -> ->]]; [apply Hlt in Hin|]; lia.
Qed.

(** A [resize] event reaches a hook whose closure is in the listener list. *)
Lemma windowSize_on_resize_attached (h : UseWindowSize.Hook) (w : Window)
    (fn : FnRef) (newWidth newHeight : Z) :
  UseWindowSize.handleWindowResize h = Some fn →
  (resize, fn) ∈ listeners w →
  UseWindowSize.useWindowSize (UseWindowSize.on_resize newWidth newHeight (h, w))
  = {| UseWindowSize.width := newWidth; UseWindowSize.height := newHeight |}.
Proof.
  intros Hfn Hin. unfold UseWindowSize.useWindowSize, UseWindowSize.on_resize.
  cbn [fst snd].
  destruct (windowSize_foldl_call_spec (with_size newWidth newHeight w) h fn
              (handlers resize (with_size newWidth newHeight w)) Hfn)
    as [_ Hsize].
  rewrite Hsize. rewrite bool_decide_eq_true_2; [done|].
  by apply handlers_elem.
Qed.

(** X12. Two [useWindowSize] hooks mounted on one window register two
    different listeners, and a [resize] event reaches both.  The cleanup
    of the first removes its own listener only: the second is still
    registered and still follows the size of the window. *)
Theorem useWindowSize_two_instances (w : Window) :
  window_wf w →
  let first := UseWindowSize.mount w in
  let second := UseWindowSize.mount first.2 in
  let after := (UseWindowSize.unmount (first.1, second.2)).2 in
  listeners second.2
    = listeners w ++ [(resize, next_fn w); (resize, S (next_fn w))]
  ∧ listeners after = listeners w ++ [(resize, S (next_fn w))]
  ∧ ∀ newWidth newHeight,
      let size := {| UseWindowSize.width := newWidth;
                     UseWindowSize.height := newHeight |} in
      UseWindowSize.useWindowSize
        (UseWindowSize.on_resize newWidth newHeight (first.1, second.2)) = size
      ∧ UseWindowSize.useWindowSize
          (UseWindowSize.on_resize newWidth newHeight second) = size
      ∧ UseWindowSize.useWindowSize
          (UseWindowSize.on_resize newWidth newHeight (second.1, after)) = size.
Proof.
  intros Hwf first second after.
  destruct (windowSize_mount_window w Hwf) as (Hfn1 & Hls1 & Hnext1 & Hwf1).
  fold first in Hfn1, Hls1, Hnext1, Hwf1.
  destruct (windowSize_mount_window first.2 Hwf1) as (Hfn2' & Hls2' & _ & _).
  fold second in Hfn2', Hls2'.
  assert (Hfn2 : UseWindowSize.handleWindowResize second.1
                 = Some (S (next_fn w))) by (by rewrite Hfn2', Hnext1).
  assert (Hls2 : listeners second.2
                 = listeners w ++ [(resize, next_fn w); (resize, S (next_fn w))])
    by (by rewrite Hls2', Hls1, Hnext1, <- app_assoc).
  clear Hfn2' Hls2'.
  assert (Hafter : listeners after = listeners w ++ [(resize, S (next_fn w))]).
  { unfold after, UseWindowSize.unmount, UseWindowSize.cleanup.
    cbn [fst snd]. rewrite Hfn1. cbn [snd].
    unfold removeEventListener. cbn [listeners with_listeners].
    rewrite Hls2, filter_app.
    rewrite (filter_ne_id _ (listeners w))
      by exact (window_wf_fresh resize w Hwf).
    rewrite !filter_cons, filter_nil.
    rewrite decide_False by auto.
    rewrite decide_True by (intros [= Heq]; lia). done. }
  split; [done|]. split; [done|].
  intros newWidth newHeight size. split; [|split].
  - apply (windowSize_on_resize_attached _ _ (next_fn w)); [done|].
    rewrite Hls2. apply elem_of_app. right. by left.
  - rewrite (surjective_pairing second).
    apply (windowSize_on_resize_attached _ _ (S (next_fn w))); [done|].
    rewrite Hls2. apply elem_of_app. right. right. by left.
  - apply (windowSize_on_resize_attached _ _ (S (next_fn w))); [done|].
    rewrite Hafter. apply elem_of_app. right. by left.
Qed.

Lemma useWindowSize_two_instances_witness :
  let w := {| innerWidth := 800; innerHeight := 600;
              listeners := [(keydown, 0%nat)]; next_fn := 7 |} in
  let first := UseWindowSize.mount w in
  let second := UseWindowSize.mount first.2 in
  listeners (UseWindowSize.unmount (first.1, second.2)).2
  = [(keydown, 0%nat); (resize, 8%nat)].
Proof.
  intros w first second.
  assert (Hwf : window_wf w).
  { split; [apply NoDup_singleton|].
    intros ty fn Hin. apply list_elem_of_singleton in Hin.
    injection Hin as -> ->. simpl. lia. }
  destruct (useWindowSize_two_instances w Hwf) as (_ & Hafter & _).
  exact Hafter.
Defined.

End WindowEdges.

(** ** [useTimeout]: one timer, the callback of the last render *)

Section TimeoutEdges.
Import React Timers UseTimeout.
Implicit Types (s : Hook * Timers) (callback : Callback) (delay : Z).

Lemma timeout_reachable (rt : Runtime) callback delay
    (first : nat) (start : Z) (next : nat) (es : list Step) :
  let s := run es (mount callback delay first (fresh_timers rt start next)) in
  coherent s.1 ∧ single_timer s.
Proof.
  destruct (timeout_mount_spec callback delay first (fresh_timers rt start next))
    as (Hco & _ & _ & Href & Ht); [done|].
  apply timeout_run_invariant; [done|].
  right. eexists _, _. split; [exact Href|]. by rewrite Ht.
Qed.

(** X13. In every state the hook reaches at most one timer is pending, and
    [timeoutRef] holds its handle. *)
Theorem useTimeout_at_most_one_timer (rt : Runtime) callback delay
    (first : nat) (start : Z) (next : nat) (es : list Step) :
  let s := run es (mount callback delay first (fresh_timers rt start next)) in
  (length (pending s.2) ≤ 1)%nat
  ∧ ∀ id due, (id, due) ∈ pending s.2 → timeoutRef s.1 = Some id.
Proof.
  intros s.
  destruct (timeout_reachable rt callback delay first start next es)
    as [_ [Hp|(id & due & Href & Hp)]]; fold s in Hp |- *; rewrite Hp.
  - split; [simpl; lia|]. intros id due Hin. by apply elem_of_nil in Hin.
  - fold s in Href. split; [simpl; lia|].
    intros id' due' Hin. apply list_elem_of_singleton in Hin.
    by injection Hin as -> ->.
Qed.

(** X14. A re-render that passes a new callback and the delay of before
    does not touch the pending timer, and when the timer fires it calls
    the new callback. *)
Theorem useTimeout_new_callback_keeps_timer (rt : Runtime) callback delay
    (first : nat) (start : Z) (next : nat) (es : list Step)
    callback' (id : nat) (due dt : Z) :
  let s := run es (mount callback delay first (fresh_timers rt start next)) in
  pending s.2 = [(id, due)] →
  due ≤ now s.2 + Z.max 0 dt →
  let s' := update callback' (current_delay s.1) s in
  s'.2 = s.2
  ∧ fired (elapse dt s').2 = fired s.2 ++ [(callback', due)].
Proof.
  intros s Hp Hdue s'.
  destruct (timeout_reachable rt callback delay first start next es)
    as [Hco Hsingle]. fold s in Hco, Hsingle.
  assert (Hs' : s' = (rendered_with callback' s.1, s.2))
    by (by apply timeout_update_same_delay).
  split; [by rewrite Hs'|].
  assert (Hsingle' : single_timer s') by (by rewrite Hs').
  destruct (timeout_elapse_spec dt s' Hsingle')
    as (_ & _ & _ & _ & _ & _ & Hfire).
  destruct (Hfire id due) as [_ Hf]; [by rewrite Hs'..|].
  rewrite Hf, Hs'. done.
Qed.

Lemma useTimeout_new_callback_keeps_timer_witness :
  fired (elapse 60
           (update 8 100 (run [Elapse 40] (mount 7 100 0 (fresh_timers Browser 0 1))))).2
  = [(8, 100)].
Proof.
  assert (Hp : pending (run [Elapse 40] (mount 7 100 0 (fresh_timers Browser 0 1))).2
               = [(1%nat, 100)]) by reflexivity.
  assert (Hdue : 100 ≤ now (run [Elapse 40]
                              (mount 7 100 0 (fresh_timers Browser 0 1))).2
                       + Z.max 0 60) by (vm_compute; discriminate).
  destruct (useTimeout_new_callback_keeps_timer Browser 7 100 0 0 1 [Elapse 40] 8
              1 100 60 Hp Hdue) as [_ Hfired].
  exact Hfired.
Defined.

End TimeoutEdges.

(** ** [useDelay]: a new delay, a new callback, after the cleanup *)

Section DelayEdges.
Import React Timers UseDelay.
Implicit Types (s : Hook * Timers) (callback : Callback) (delay : Z)
  (dependencies : list Value).

Lemma delay_reachable (rt : Runtime) callback delay dependencies
    (first : nat) (start : Z) (next : nat) (es : list Step) :
  let s := run es (mount callback delay dependencies first
                     (fresh_timers rt start next)) in
  settled (dependencies_of s.1) s.
Proof.
  destruct (delay_mount_spec callback delay dependencies first
              (fresh_timers rt start next)) as (Hs0 & _); [done|].
  by apply (delay_run_settled es dependencies).
Qed.

Lemma delay_reachable_runtime (rt : Runtime) callback delay dependencies
    (first : nat) (start : Z) (next : nat) (es : list Step) :
  runtime (run es (mount callback delay dependencies first
                     (fresh_timers rt start next))).2 = rt.
Proof.
  rewrite delay_run_runtime.
  destruct (delay_mount_spec callback delay dependencies first
              (fresh_timers rt start next)) as (_ & _ & _ & Ht); [done|].
  by rewrite Ht.
Qed.

(** X16. A render that passes another delay and the dependencies of before
    restarts the timer all the same: one timer is pending, due one wait
    from now, the wait being what the runtime makes of the new delay (the
    delay itself when it is between 1 and [2^31 - 1] milliseconds), and
    nothing has fired meanwhile. *)
Theorem useDelay_new_delay_restarts (rt : Runtime) callback delay dependencies
    (first : nat) (start : Z) (next : nat) (es : list Step)
    callback' delay' :
  let s := run es (mount callback delay dependencies first
                     (fresh_timers rt start next)) in
  delay' ≠ UseTimeout.current_delay (timeout s.1) →
  let s' := update callback' delay' (dependencies_of s.1) s in
  (∃ id, pending s'.2 = [(id, now s.2 + timer_delay rt delay')])
  ∧ (1 ≤ delay' ≤ TIMEOUT_MAX →
     ∃ id, pending s'.2 = [(id, now s.2 + delay')])
  ∧ fired s'.2 = fired s.2.
Proof.
  intros s Hne s'.
  pose proof (delay_reachable rt callback delay dependencies first start next es)
    as Hs. fold s in Hs.
  pose proof (delay_reachable_runtime rt callback delay dependencies first
                start next es) as Hrt. fold s in Hrt.
  destruct (delay_update_settled callback' delay' _ (dependencies_of s.1) s Hs)
    as (_ & _ & _ & _ & Hf). fold s' in Hf.
  assert (Hpending : ∃ id, pending s'.2
                           = [(id, now s.2 + timer_delay rt delay')]).
  { destruct Hs as (Hco & Hsingle & _).
    unfold s'. rewrite delay_update_unfold.
    destruct (timeout_update_new_delay callback' delay' (timeout s.1, s.2)
                Hco Hsingle Hne) as (Hco1 & Hd1 & _ & Href1 & Ht1).
    set (s1 := UseTimeout.update callback' delay' (timeout s.1, s.2)) in *.
    cbn zeta. cbn [fst snd] in *.
    destruct (deps_changed _ _); cbn [snd].
    - assert (Hsingle1 : UseTimeout.single_timer s1).
      { right. eexists _, _. split; [exact Href1|]. by rewrite Ht1. }
      destruct (timeout_reset_restarts s1 Hco1 Hsingle1) as (_ & _ & _ & Ht2).
      eexists. rewrite Ht2, Hd1, Ht1. cbn [runtime now pending].
      by rewrite Hrt.
    - eexists. rewrite Ht1. cbn [pending]. by rewrite Hrt. }
  split; [done|]. split; [|done].
  intros Hd. destruct Hpending as [id Hp]. exists id.
  by rewrite Hp, (timer_delay_in_range rt delay' Hd).
Qed.

(** X17. A render that passes a new callback with the delay and the
    dependencies of before leaves the pending timer alone, and when the
    timer fires it calls the new callback. *)
Theorem useDelay_new_callback_keeps_timer (rt : Runtime) callback delay dependencies
    (first : nat) (start : Z) (next : nat) (es : list Step)
    callback' (id : nat) (due dt : Z) :
  let s := run es (mount callback delay dependencies first
                     (fresh_timers rt start next)) in
  pending s.2 = [(id, due)] →
  due ≤ now s.2 + Z.max 0 dt →
  let s' := update callback' (UseTimeout.current_delay (timeout s.1))
              (dependencies_of s.1) s in
  s'.2 = s.2
  ∧ fired (elapse dt s').2 = fired s.2 ++ [(callback', due)].
Proof.
  intros s Hp Hdue s'.
  pose proof (delay_reachable rt callback delay dependencies first start next es)
    as Hs. fold s in Hs.
  destruct (delay_quiet_render callback' (dependencies_of s.1) s Hs)
    as (Hs' & Ht' & _).
  assert (Hcb : UseTimeout.callbackRef (timeout s'.1) = callback').
  { unfold s'. by rewrite delay_update_quiet. }
  fold s' in Hs', Ht'. split; [done|].
  destruct (delay_elapse_spec dt (dependencies_of s.1) s' Hs')
    as (_ & _ & _ & _ & _ & Hfire).
  destruct (Hfire id due) as [_ Hf]; [by rewrite Ht'..|].
  by rewrite Hf, Ht', Hcb.
Qed.

(** X18. After the cleanup nothing fires any more, however long one
    waits. *)
Theorem useDelay_nothing_fires_after_unmount (rt : Runtime) callback delay dependencies
    (first : nat) (start : Z) (next : nat) (es : list Step) (dt : Z) :
  let s := run es (mount callback delay dependencies first
                     (fresh_timers rt start next)) in
  fired (elapse dt (unmount s)).2 = fired s.2
  ∧ pending (elapse dt (unmount s)).2 = [].
Proof.
  intros s.
  pose proof (delay_reachable rt callback delay dependencies first start next es)
    as Hs. fold s in Hs.
  destruct Hs as (Hco & Hsingle & Hdeps).
  unfold elapse, unmount, lift, UseTimeout.unmount. cbn [fst snd timeout].
  rewrite (timeout_clear_spec (timeout s.1, s.2) Hsingle). cbn [fst snd].
  unfold UseTimeout.elapse. cbn [fst snd].
  by rewrite advance_nothing_pending.
Qed.

Lemma useDelay_new_delay_restarts_witness :
  (∃ id, pending (update 7 250 [VUser 1]
                    (run [Elapse 40] (mount 7 100 [VUser 1] 0
                                        (fresh_timers Browser 0 1)))).2
         = [(id, 290)]).
Proof.
  assert (Hne : 250 ≠ UseTimeout.current_delay
                        (timeout (run [Elapse 40]
                                    (mount 7 100 [VUser 1] 0
                                       (fresh_timers Browser 0 1))).1))
    by (vm_compute; discriminate).
  destruct (useDelay_new_delay_restarts Browser 7 100 [VUser 1] 0 0 1 [Elapse 40]
              7 250 Hne) as [Hpending _].
  exact Hpending.
Defined.

Lemma useDelay_new_callback_keeps_timer_witness :
  fired (elapse 100
           (update 8 100 [VUser 2]
              (run [Elapse 40; Render 7 100 [VUser 2]]
                 (mount 7 100 [VUser 1] 0 (fresh_timers Browser 0 1))))).2
  = [(8, 140)].
Proof.
  assert (Hp : pending (run [Elapse 40; Render 7 100 [VUser 2]]
                          (mount 7 100 [VUser 1] 0 (fresh_timers Browser 0 1))).2
               = [(3%nat, 140)]) by reflexivity.
  assert (Hdue : 140 ≤ now (run [Elapse 40; Render 7 100 [VUser 2]]
                              (mount 7 100 [VUser 1] 0 (fresh_timers Browser 0 1))).2
                       + Z.max 0 100) by (vm_compute; discriminate).
  destruct (useDelay_new_callback_keeps_timer Browser 7 100 [VUser 1] 0 0 1
              [Elapse 40; Render 7 100 [VUser 2]] 8 3 140 100 Hp Hdue)
    as [_ Hfired].
  exact Hfired.
Defined.

End DelayEdges.

(** ** [useUpdateEffect] and [useToggle] *)

Section UpdateEffectEdges.
Import React UseUpdateEffect.

Lemma changed_renders_constant (dependencies : list Value)
    (renders : list (Callback * list Value)) :
  Forall (λ r, r.2 = dependencies) renders →
  changed_renders dependencies renders = [].
Proof.
  induction renders as [|[callback deps] renders IH]; intros Hall; [done|].
  apply Forall_cons in Hall as [Heq Hall]. simpl in Heq. subst deps.
  simpl. rewrite deps_changed_refl. by apply IH.
Qed.

(** X19. When every render passes the dependencies of the mount (the empty
    array, for one), the callback is never called, whatever callbacks the
    renders pass and however many renders there are. *)
Theorem useUpdateEffect_constant_dependencies (callback : Callback)
    (dependencies : list Value) (renders : list (Callback * list Value)) :
  Forall (λ r, r.2 = dependencies) renders →
  called (run renders (mount callback dependencies)) = [].
Proof.
  intros Hall.
  destruct (updateEffect_run_spec renders (mount callback dependencies))
    as [_ Hcalled]; [done|].
  rewrite Hcalled. simpl. by apply changed_renders_constant.
Qed.

Lemma useUpdateEffect_constant_dependencies_witness :
  called (run [(1, []); (2, []); (3, [])] (mount 0 [])) = [].
Proof.
  apply useUpdateEffect_constant_dependencies.
  repeat constructor.
Defined.

End UpdateEffectEdges.

Section ToggleEdges.
Import React UseToggle.

(** X20. [n] calls of [changeToggle(null)] leave the state as it was when
    [n] is even and negate it when [n] is odd; a call with a boolean
    afterwards sets that boolean whatever came before. *)
Theorem useToggle_parity (n : nat) (toggle b : bool) :
  Nat.iter n (change None) toggle
    = (if Nat.even n then toggle else negb toggle)
  ∧ change (Some b) (Nat.iter n (change None) toggle) = b.
Proof.
  split; [|done].
  induction n as [|n IH]; [done|].
  rewrite Nat.iter_succ, IH, Nat.even_succ, <- Nat.negb_even.
  unfold change. simpl.
  destruct (Nat.even n); simpl; [done|apply negb_involutive].
Qed.

End ToggleEdges.
